(** * Duet printer model: object-model mirror, structural merge, reply drain

    A shallow embedding of [duet/model.py]: the function [merge_dictionary]
    and the class [DuetPrinter] with its recursive object-model fetch, its
    [tick] and its HTTP 503 callback.

    Python values coming from the board are JSON trees.  A Python [dict] is
    an association list in insertion order with distinct keys (the order
    decides which entry a loop meets first, hence which exception leaves the
    function).  Exceptions are explicit: every operation returns an
    [outcome]. *)

From Stdlib Require Import List String Ascii ZArith Bool Arith Lia.
Import ListNotations.
Open Scope string_scope.
Open Scope list_scope.

Set Implicit Arguments.
Set Warnings "-register-all,-notation-for-abbreviation".
Unset Elimination Schemes.

(** ** JSON trees *)

Inductive node : Type :=
| JNull                                   (* None *)
| JBool (b : bool)
| JNum (z : Z)                            (* the sequence counters are integers *)
| JStr (s : string)
| JList (l : list node)
| JDict (d : list (string * node)).

Definition dict := list (string * node).

Section NodeInduction.
Variable P : node -> Prop.
Hypothesis HNull : P JNull.
Hypothesis HBool : forall b, P (JBool b).
Hypothesis HNum : forall z, P (JNum z).
Hypothesis HStr : forall s, P (JStr s).
Hypothesis HList : forall l, Forall P l -> P (JList l).
Hypothesis HDict : forall d, Forall (fun kv => P (snd kv)) d -> P (JDict d).

Fixpoint node_rect' (n : node) : P n :=
  match n with
  | JNull => HNull
  | JBool b => HBool b
  | JNum z => HNum z
  | JStr s => HStr s
  | JList l =>
      HList ((fix go (l : list node) : Forall P l :=
                match l with
                | [] => Forall_nil P
                | x :: r => Forall_cons x (node_rect' x) (go r)
                end) l)
  | JDict d =>
      HDict ((fix go (d : dict) : Forall (fun kv => P (snd kv)) d :=
                match d with
                | [] => Forall_nil _
                | kv :: r => Forall_cons kv (node_rect' (snd kv)) (go r)
                end) d)
  end.
End NodeInduction.

(** ** Python dictionaries *)

Definition keys (d : dict) : list string := map fst d.

(** [d.get(k)] *)
Fixpoint dict_get (d : dict) (k : string) : option node :=
  match d with
  | [] => None
  | (k', v) :: r => if String.eqb k' k then Some v else dict_get r k
  end.

(** [k in d] *)
Definition dict_in (k : string) (d : dict) : bool :=
  match dict_get d k with Some _ => true | None => false end.

(** [d[k] = v]: an existing key keeps its position, a new key goes last. *)
Fixpoint dict_set (d : dict) (k : string) (v : node) : dict :=
  match d with
  | [] => [(k, v)]
  | (k', v') :: r =>
      if String.eqb k' k then (k', v) :: r else (k', v') :: dict_set r k v
  end.

(** [d.pop(k, None)] *)
Definition dict_pop (d : dict) (k : string) : dict :=
  filter (fun kv => negb (String.eqb (fst kv) k)) d.

(** [r.update(d)] *)
Definition dict_update (r d : dict) : dict :=
  fold_left (fun acc kv => dict_set acc (fst kv) (snd kv)) d r.

(** The association list stands for a Python dict: keys are distinct, at
    every level of the tree. *)
Fixpoint wf_node (n : node) : Prop :=
  match n with
  | JList l => (fix all (l : list node) : Prop :=
                  match l with [] => True | x :: r => wf_node x /\ all r end) l
  | JDict d => NoDup (keys d) /\
               (fix all (d : dict) : Prop :=
                  match d with [] => True | kv :: r => wf_node (snd kv) /\ all r end) d
  | _ => True
  end.

Definition wf_dict (d : dict) : Prop := wf_node (JDict d).

(** ** Outcomes *)

Inductive exn : Type :=
| TransportError     (* raised by the HTTP client *)
| LengthMismatch     (* the ValueError raised by merge_dictionary *)
| InterpreterError.  (* TypeError, AttributeError, KeyError, or the
                        ValueError of dict() on a malformed argument *)

Inductive outcome (A : Type) : Type :=
| Ok (a : A)
| Raise (e : exn)
| OutOfModel         (* the run leaves the typed model, see the uses *)
| OutOfFuel.         (* recursion budget of the model exhausted *)

Arguments Raise {A} e.
Arguments OutOfModel {A}.
Arguments OutOfFuel {A}.

Definition obind {A B} (c : outcome A) (k : A -> outcome B) : outcome B :=
  match c with
  | Ok a => k a
  | Raise e => Raise e
  | OutOfModel => OutOfModel
  | OutOfFuel => OutOfFuel
  end.

Notation "x <- c ;; k" := (obind c (fun x => k))
  (at level 61, c at next level, right associativity).

(** ** Python built-ins on JSON values, as far as the program uses them *)

Definition chars (s : string) : list node :=
  map (fun c => JStr (String c EmptyString)) (list_ascii_of_string s).

(** [len(v)]; [None]: TypeError. *)
Definition py_len (v : node) : option nat :=
  match v with
  | JList l => Some (List.length l)
  | JStr s => Some (String.length s)
  | JDict d => Some (List.length d)
  | _ => None
  end.

(** [v[idx]] for an integer index in range(len(v)); [None]: an exception
    (a dict with string keys has no integer key). *)
Definition py_index (v : node) (idx : nat) : option node :=
  match v with
  | JList l => nth_error l idx
  | JStr s => nth_error (chars s) idx
  | _ => None
  end.

(** [destination.get(key, default)]; [None]: AttributeError. *)
Definition py_get (destination : node) (key : string) (default : node) : option node :=
  match destination with
  | JDict d => Some (match dict_get d key with Some v => v | None => default end)
  | _ => None
  end.

(** One element of the argument of [dict(...)] when that argument is a
    sequence: it must itself be a sequence of length two, whose first
    item becomes the key. *)
Definition py_pair (e : node) : outcome (string * node) :=
  match e with
  | JList [JStr k; v] => Ok (k, v)
  | JList [JList _; _] | JList [JDict _; _] => Raise InterpreterError (* unhashable *)
  | JList [_; _] => OutOfModel              (* a key that is not a string *)
  | JStr (String a (String b EmptyString)) =>
      Ok (String a EmptyString, JStr (String b EmptyString))
  | JDict [(k1, _); (k2, _)] => Ok (k1, JStr k2)
  | _ => Raise InterpreterError
  end.

Fixpoint py_pairs (l : list node) (acc : dict) : outcome dict :=
  match l with
  | [] => Ok acc
  | e :: r =>
      match py_pair e with
      | Ok (k, v) => py_pairs r (dict_set acc k v)
      | Raise x => Raise x
      | OutOfFuel => OutOfFuel
      | OutOfModel =>
          (* a later element may still make dict() raise *)
          match py_pairs r acc with
          | Raise x => Raise x
          | _ => OutOfModel
          end
      end
  end.

(** [dict(destination)] *)
Definition py_dict (destination : node) : outcome dict :=
  match destination with
  | JDict d => Ok d
  | JList l => py_pairs l []
  | JStr EmptyString => Ok []
  | _ => Raise InterpreterError
  end.

Definition lift_exn {A} (o : option A) : outcome A :=
  match o with Some a => Ok a | None => Raise InterpreterError end.

(** ** merge_dictionary *)

Section MergeLoops.
(** The recursive call, [merge_dictionary] itself below. *)
Variable rec : node -> node -> outcome dict.

(** [for idx, item in enumerate(value)]: the equal-length case.
    [result[key]] is the source list [value] itself, assigned slot by
    slot, so a slot the loop does not assign holds the source's item. *)
Fixpoint merge_items (value : list node) (dest_value : node) (idx : nat)
  : outcome (list node) :=
  match value with
  | [] => Ok []
  | item :: rest =>
      d <- lift_exn (py_index dest_value idx) ;;
      match d, item with
      | JNull, _ =>                               (* continue *)
          r <- merge_items rest dest_value (S idx) ;; Ok (item :: r)
      | _, JDict _ =>
          m <- rec item d ;;
          r <- merge_items rest dest_value (S idx) ;; Ok (JDict m :: r)
      | _, _ =>
          r <- merge_items rest dest_value (S idx) ;; Ok (item :: r)
      end
  end.

(** [for key, value in source.items()], on the locals [result] and
    [dk].  The two [continue] statements skip [dk.pop(key, None)]. *)
Fixpoint merge_entries (items : dict) (destination : node) (result dk : dict)
  : outcome (dict * dict) :=
  match items with
  | [] => Ok (result, dk)
  | (key, value) :: rest =>
      match value with
      | JDict _ =>
          d <- lift_exn (py_get destination key (JDict [])) ;;
          m <- rec value d ;;
          merge_entries rest destination
            (dict_set result key (JDict m)) (dict_pop dk key)
      | JList l =>
          let result := dict_set result key value in
          dest_value <- lift_exn (py_get destination key (JList [])) ;;
          let src_len := List.length l in
          dest_len <- lift_exn (py_len dest_value) ;;
          if Nat.eqb dest_len 0 then
            merge_entries rest destination (dict_set result key value) dk
          else if Nat.ltb dest_len src_len then
            Raise LengthMismatch
          else if Nat.ltb src_len dest_len then
            merge_entries rest destination (dict_set result key dest_value) dk
          else
            r <- merge_items l dest_value 0 ;;
            merge_entries rest destination
              (dict_set result key (JList r)) (dict_pop dk key)
      | _ =>
          d <- lift_exn (py_get destination key value) ;;
          merge_entries rest destination
            (dict_set result key d) (dict_pop dk key)
      end
  end.
End MergeLoops.

(** [merge_dictionary(source, destination)].  [dict(destination)] comes
    first; a [source] that is no dict fails at [source.items()] at the
    latest.  The returned dict is modelled as a value: the source list that
    the equal-length case assigns into is, afterwards, equal to the list
    returned under that key. *)
Fixpoint merge_dictionary (source destination : node) {struct source}
  : outcome dict :=
  match source with
  | JDict items =>
      match py_dict destination, items with
      | OutOfModel, _ :: _ => Raise InterpreterError   (* a list has no .get *)
      | o, _ =>
          dk <- o ;;
          st <- merge_entries merge_dictionary items destination [] dk ;;
          Ok (dict_update (fst st) (snd st))           (* result.update(dk) *)
      end
  | _ => Raise InterpreterError
  end.

(** ** The HTTP client and the printer *)

(** Keyword arguments of [rr_model]; [None] is an argument not passed. *)
Record kwargs : Type := Kwargs {
  key : string;
  depth : option Z;
  frequently : option bool;
  include_null : option bool;
  verbose : option bool;
  array : option Z }.

(** The reply of [rr_model]: [result], and [next] when the board sent it. *)
Record response : Type := Response { result : node; next : option Z }.

Inductive event : Type :=
| CallModel (kw : kwargs)             (* api.rr_model with these keyword arguments *)
| CallReply (nocache : option bool)   (* api.rr_reply(...) *)
| Woken (reply : option string).      (* _wait_for_reply.set(): what a waiter reads *)

(** [lst.extend(it)]; [None]: an exception. *)
Definition py_extend (lst it : node) : option (list node) :=
  match lst, it with
  | JList l, JList l2 => Some (l ++ l2)
  | JList l, JStr s => Some (l ++ chars s)
  | JList l, JDict d => Some (l ++ map JStr (keys d))
  | _, _ => None
  end.

Definition is_dict (v : node) : bool :=
  match v with JDict _ => true | _ => false end.

Definition is_empty (d : dict) : bool :=
  match d with [] => true | _ => false end.

(** The loop of [tick] that compares the poll with the stored counters.
    Equality is Python's [==]: on the integers and strings of the counters
    it is equality of values; [True == 1] holds as well. *)
Fixpoint py_eq (a b : node) {struct a} : bool :=
  match a, b with
  | JNull, JNull => true
  | JBool x, JBool y => Bool.eqb x y
  | JBool x, JNum y | JNum y, JBool x => Z.eqb (if x then 1 else 0) y
  | JNum x, JNum y => Z.eqb x y
  | JStr x, JStr y => String.eqb x y
  | JList xs, JList ys =>
      (fix go (xs ys : list node) : bool :=
         match xs, ys with
         | [], [] => true
         | x :: xs', y :: ys' => py_eq x y && go xs' ys'
         | _, _ => false
         end) xs ys
  | JDict d1, JDict d2 =>
      Nat.eqb (List.length d1) (List.length d2) &&
      (fix go (d : dict) : bool :=
         match d with
         | [] => true
         | (k, v) :: r =>
             match dict_get d2 k with
             | Some w => py_eq v w
             | None => false
             end && go r
         end) d1
  | _, _ => false
  end.

Definition seqs_changes (stored polled : dict) : dict :=
  fold_left
    (fun changes kv =>
       match dict_get stored (fst kv) with
       | Some old =>
           if negb (py_eq old (snd kv)) then dict_set changes (fst kv) (snd kv)
           else changes
       | None => changes
       end)
    polled [].

(** Code that runs on a state and may raise; the state it leaves behind
    is part of the result in either case. *)
Definition St (S A : Type) : Type := S -> S * outcome A.

Definition ret {S A} (a : A) : St S A := fun s => (s, Ok a).
Definition stop {S A} (o : outcome A) : St S A := fun s => (s, o).
Definition bind {S A B} (c : St S A) (k : A -> St S B) : St S B :=
  fun s =>
    match c s with
    | (s', Ok a) => k a s'
    | (s', Raise e) => (s', Raise e)
    | (s', OutOfModel) => (s', OutOfModel)
    | (s', OutOfFuel) => (s', OutOfFuel)
    end.
Definition modify {S} (f : S -> S) : St S unit := fun s => (f s, Ok tt).

Notation "'let!' x ':=' c 'in' k" := (bind c (fun x => k))
  (at level 10, x name, c at level 100, k at level 200).
Notation "c ';;;' k" := (bind c (fun _ => k))
  (at level 61, right associativity).

Section Printer.
(** The client [RepRapFirmware] is not part of this module: its state is
    abstract, and a call either returns or raises ([None]). *)
Variable Api : Type.
Variable rr_model : kwargs -> Api -> Api * option response.
Variable rr_reply : option bool -> Api -> Api * option string.

(** [self.api], together with a ghost record of the calls made on it
    and of the wake-ups of the reply event. *)
Record client : Type := Client { api : Api; history : list event }.

Definition record (e : event) (c : client) : client :=
  Client (api c) (history c ++ [e]).

Definition call_rr_model (kw : kwargs) : St client response :=
  fun c =>
    match rr_model kw (api c) with
    | (a, Some r) => (Client a (history c ++ [CallModel kw]), Ok r)
    | (a, None) => (Client a (history c ++ [CallModel kw]), Raise TransportError)
    end.

Definition call_rr_reply (nocache : option bool) : St client string :=
  fun c =>
    match rr_reply nocache (api c) with
    | (a, Some r) => (Client a (history c ++ [CallReply nocache]), Ok r)
    | (a, None) => (Client a (history c ++ [CallReply nocache]), Raise TransportError)
    end.

(** *** _fetch_objectmodel_recursive

    The method uses no attribute but [self.api]. *)

Definition sub_kwargs (kw : kwargs) (k : string) (v : node) (d : Z) : kwargs :=
  Kwargs (if String.eqb (key kw) "" then k else key kw ++ "." ++ k)
         (Some (if is_dict v then d + 1 else 99)%Z)
         (frequently kw) (include_null kw) (verbose kw) (array kw).

Definition with_array (kw : kwargs) (n : Z) : kwargs :=
  Kwargs (key kw) (depth kw) (frequently kw) (include_null kw) (verbose kw) (Some n).

(** [for k, v in response['result'].items()]: each value is replaced by
    the result fetched for it. *)
Fixpoint fetch_children (rec : kwargs -> St client response) (kw : kwargs) (d : Z)
    (items : dict) (res : dict) : St client dict :=
  match items with
  | [] => ret res
  | (k, v) :: rest =>
      let! sub_response := rec (sub_kwargs kw k v d) in
      fetch_children rec kw d rest (dict_set res k (result sub_response))
  end.

Fixpoint _fetch_objectmodel_recursive (fuel : nat) (kw : kwargs) : St client response :=
  match fuel with
  | O => stop OutOfFuel
  | S fuel' =>
      let d := match depth kw with Some d => d | None => 1%Z end in
      let! response := call_rr_model kw in
      match result response with
      | JDict items =>
          let! res := fetch_children (_fetch_objectmodel_recursive fuel') kw d items items in
          ret (Response (JDict res) (next response))
      | r =>
          match next response with
          | Some n =>
              if (0 <? n)%Z then
                let! next_data := _fetch_objectmodel_recursive fuel' (with_array kw n) in
                match py_extend r (result next_data) with
                | Some l => ret (Response (JList l) (Some 0%Z))
                | None => stop (Raise InterpreterError)
                end
              else ret response
          | None => ret response
          end
      end
  end.

Definition full_kwargs : kwargs :=
  Kwargs "" (Some 1%Z) (Some false) (Some true) (Some true) None.

Definition _fetch_full_status (fuel : nat) : St client response :=
  _fetch_objectmodel_recursive fuel full_kwargs.

(** *** The printer *)

(** The attributes of [DuetPrinter], with their declared types: [om]
    and [seqs] are dicts or None, [_reply] a str or None.  One method
    runs at a time: what other tasks do at an [await] is not part of
    the model. *)
Record DuetPrinter : Type := Printer {
  io : client;
  om : option dict;
  seqs : option dict;
  _reply : option string;
  _wait_for_reply : bool }.

Definition set_io c p := Printer c (om p) (seqs p) (_reply p) (_wait_for_reply p).
Definition set_om o p := Printer (io p) o (seqs p) (_reply p) (_wait_for_reply p).
Definition set_seqs s p := Printer (io p) (om p) s (_reply p) (_wait_for_reply p).
Definition set_reply r p := Printer (io p) (om p) (seqs p) r (_wait_for_reply p).
Definition set_flag b p := Printer (io p) (om p) (seqs p) (_reply p) b.

(** A call that involves [self.api] only. *)
Definition on_api {A} (c : St client A) : St DuetPrinter A :=
  fun p => let (c', o) := c (io p) in (set_io c' p, o).

(** [_wait_for_reply.set(); await asyncio.sleep(0); _wait_for_reply.clear()] *)
Definition wake : St DuetPrinter unit :=
  modify (fun p => set_flag true (set_io (record (Woken (_reply p)) (io p)) p)) ;;;
  modify (set_flag false).

(** *** _handle_om_changes *)

Definition subtree_kwargs (k : string) : kwargs :=
  Kwargs k (Some 2%Z) (Some false) (Some true) (Some true) None.

(** [self.om[key] = v]; on None this is a TypeError. *)
Definition om_setitem (k : string) (v : node) : St DuetPrinter unit :=
  fun p =>
    match om p with
    | Some o => (set_om (Some (dict_set o k v)) p, Ok tt)
    | None => (p, Raise InterpreterError)
    end.

(** [for key in changes] *)
Fixpoint fetch_changed (fuel : nat) (ks : list string) : St DuetPrinter unit :=
  match ks with
  | [] => ret tt
  | k :: rest =>
      if String.eqb k "reply" then fetch_changed fuel rest
      else
        let! changed_obj := on_api (_fetch_objectmodel_recursive fuel (subtree_kwargs k)) in
        om_setitem k (result changed_obj) ;;;
        fetch_changed fuel rest
  end.

(** [if 'reply' in changes: ...] *)
Definition fetch_reply (changes : dict) : St DuetPrinter unit :=
  if dict_in "reply" changes then
    let! r := on_api (call_rr_reply None) in
    modify (set_reply (Some r)) ;;;
    wake
  else ret tt.

(** [aliased] tells that [changes] is the very dict stored in
    [self.seqs] (tick passes the polled dict when no counters were
    stored): [changes.pop] then removes the key from [self.seqs] too. *)
Definition _handle_om_changes (fuel : nat) (changes : dict) (aliased : bool)
  : St DuetPrinter unit :=
  fetch_reply changes ;;;
  if dict_in "volChanges" changes then
    let changes := dict_pop changes "volChanges" in
    (if aliased then modify (set_seqs (Some changes)) else ret tt) ;;;
    fetch_changed fuel (keys changes)
  else
    fetch_changed fuel (keys changes).

(** *** tick *)

Definition seqs_kwargs : kwargs := Kwargs "seqs" None None None None None.

(** An assignment to an attribute declared [dict]: None is the
    attribute's default; any other value that is no dict takes the
    printer out of its declared type. *)
Definition store (set : option dict -> DuetPrinter -> DuetPrinter) (v : node)
  : St DuetPrinter unit :=
  match v with
  | JDict d => modify (set (Some d))
  | JNull => modify (set None)
  | _ => stop OutOfModel
  end.

Definition tick (fuel : nat) : St DuetPrinter unit :=
  fun p =>
    match om p with
    | None =>
        (let! res := on_api (_fetch_full_status fuel) in
         store set_om (result res)) p
    | Some _ =>
        (let! res := on_api (call_rr_model seqs_kwargs) in
         match seqs p with
         | None =>
             (* changes = result['result'], and self.seqs is that object *)
             store set_seqs (result res) ;;;
             match result res with
             | JDict changes =>
                 if is_empty changes then ret tt
                 else _handle_om_changes fuel changes true
             | _ => ret tt
             end
         | Some stored =>
             match result res with
             | JDict polled =>
                 let changes := seqs_changes stored polled in
                 modify (set_seqs (Some polled)) ;;;
                 if is_empty changes then ret tt
                 else _handle_om_changes fuel changes false
             | _ => stop (Raise InterpreterError)       (* .items() *)
             end
         end) p
    end.

(** *** http_503_callback *)

(** [for _ in range(n)] *)
Fixpoint drain (n : nat) : St DuetPrinter unit :=
  match n with
  | O => ret tt
  | S n' =>
      let! reply := on_api (call_rr_reply (Some true)) in
      if String.eqb reply "" then ret tt
      else modify (set_reply (Some reply)) ;;; drain n'
  end.

Definition http_503_callback : St DuetPrinter unit := drain 10 ;;; wake.

(** *** Notions used in the statements *)

(** The board delivers the replies [rs], one per read, none of the
    reads raising. *)
Inductive delivers : Api -> list string -> Api -> Prop :=
| delivers_nil a : delivers a [] a
| delivers_cons a a1 r rs a' :
    rr_reply (Some true) a = (a1, Some r) ->
    delivers a1 rs a' ->
    delivers a (r :: rs) a'.

(** The last value of [rs] that is not the empty string, [old] when
    there is none. *)
Definition retained (old : option string) (rs : list string) : option string :=
  fold_left (fun acc r => if String.eqb r "" then acc else Some r) rs old.

Definition reads (rs : list string) : list event :=
  map (fun _ => CallReply (Some true)) rs.

(** The calls of the loop [for key in changes] on the client, and the
    results they return, key by key. *)
Fixpoint fetch_subtrees (fuel : nat) (ks : list string) : St client dict :=
  match ks with
  | [] => ret []
  | k :: rest =>
      if String.eqb k "reply" then fetch_subtrees fuel rest
      else
        let! res := _fetch_objectmodel_recursive fuel (subtree_kwargs k) in
        let! more := fetch_subtrees fuel rest in
        ret ((k, result res) :: more)
  end.

End Printer.

(** ** Notions used in the statements about merge_dictionary *)

(** Merging a dict with itself: what the recursive calls must deliver. *)
Definition self_merge (x : node) : Prop :=
  forall d, x = JDict d -> merge_dictionary x x = Ok d.

(** What the self-merge needs from one entry of the dict. *)
Definition self_entry (kv : string * node) : Prop :=
  match snd kv with
  | JDict _ => self_merge (snd kv)
  | JList l => Forall self_merge l
  | _ => True
  end.

(** What the equal-length loop puts into slot [i], given the source's
    element [v] and the destination's element [w]. *)
Definition slot_of (v w r : node) : Prop :=
  match w, v with
  | JNull, _ => r = v
  | _, JDict _ => exists m, merge_dictionary v w = Ok m /\ r = JDict m
  | _, _ => r = v
  end.

(** ** A scripted board, for concrete runs *)

Module Bench.
(** [answers]: what [rr_model] returns for a key, a missing key making
    the call raise; [replies]: the replies buffered for [rr_reply],
    which returns the empty string once they are consumed. *)
Record board : Type := Board {
  answers : list (string * response);
  replies : list string }.

Fixpoint answer (l : list (string * response)) (k : string) : option response :=
  match l with
  | [] => None
  | (k', r) :: rest => if String.eqb k' k then Some r else answer rest k
  end.

Definition rr_model (kw : kwargs) (b : board) : board * option response :=
  (b, answer (answers b) (key kw)).

Definition rr_reply (nocache : option bool) (b : board) : board * option string :=
  match replies b with
  | [] => (b, Some "")
  | r :: rest => (Board (answers b) rest, Some r)
  end.

Definition plain (v : node) : response := Response v None.

(** A board with a small object model. *)
Definition idle_board : board :=
  Board [("", plain (JDict [("state", JDict [("status", JStr "idle")]);
                           ("job", JDict [("layer", JNum 0)])]));
         ("state", plain (JDict [("status", JStr "idle")]));
         ("state.status", plain (JStr "idle"));
         ("job", plain (JDict [("layer", JNum 0)]));
         ("job.layer", plain (JNum 0));
         ("seqs", plain (JDict [("reply", JNum 5); ("job", JNum 2)]))]
        [].

(** A board on which the counter of "job" has moved to 3 and the
    subtree "job" cannot be fetched. *)
Definition failing_board : board :=
  Board [("seqs", plain (JDict [("reply", JNum 5); ("job", JNum 3)]))] [].

Definition fresh (b : board) : DuetPrinter board :=
  Printer (Client b []) None None None false.

Definition tracking (b : board) (reply : option string) : DuetPrinter board :=
  Printer (Client b [])
          (Some [("job", JDict [("layer", JNum 0)])])
          (Some [("reply", JNum 5); ("job", JNum 2)])
          reply false.

Definition tick := tick rr_model rr_reply.
Definition http_503_callback := http_503_callback rr_reply.
End Bench.

Definition sample_om : dict :=
  [("state", JDict [("status", JStr "idle"); ("upTime", JNum 42)]);
   ("tools", JList [JDict [("number", JNum 0)]; JNull; JNum 3]);
   ("boards", JList []);
   ("ok", JBool true)].

Definition busy_board : Bench.board :=
  Bench.Board [] ["r1"; "r2"; "r3"; "r4"; "r5"; "r6"; "r7"; "r8"; "r9"; "r10"; "r11"].

Definition handle_on_bench :=
  _handle_om_changes Bench.rr_model Bench.rr_reply.


(** ** Further notions *)

(** A value that is neither a dict nor a list: the last branch of the
    loop of [merge_dictionary]. *)
Definition is_leaf (v : node) : bool :=
  match v with JDict _ | JList _ => false | _ => true end.

(** A value that [len] and [dict] reject: None, a bool or a number. *)
Definition not_iterable (v : node) : bool :=
  match v with JNull | JBool _ | JNum _ => true | _ => false end.

(** [k] is [base] followed by more characters, possibly none. *)
Definition extends (base k : string) : Prop := exists t, k = (base ++ t)%string.

(** A call of [rr_model] for a key under the key of [kw], with the flags
    of [kw]. *)
Definition request_under (kw : kwargs) (e : event) : Prop :=
  match e with
  | CallModel kw' =>
      extends (key kw) (key kw') /\
      frequently kw' = frequently kw /\
      include_null kw' = include_null kw /\
      verbose kw' = verbose kw
  | _ => False
  end.

Set Elimination Schemes.

Section Paging.
Variable Api : Type.
Variable rr_model : kwargs -> Api -> Api * option response.

(** The board serves an array in pages: every page but the last comes with
    a positive [next], and the request for the following page carries it as
    [array]. *)
Inductive pages (kw : kwargs) : Api -> list (list node) -> Api -> Prop :=
| pages_last a a' l nx :
    rr_model kw a = (a', Some (Response (JList l) nx)) ->
    match nx with Some n => (n <= 0)%Z | None => True end ->
    pages kw a [l] a'
| pages_more a a1 a' l n rest :
    rr_model kw a = (a1, Some (Response (JList l) (Some n))) ->
    (0 < n)%Z ->
    pages (with_array kw n) a1 rest a' ->
    pages kw a (l :: rest) a'.
End Paging.

Unset Elimination Schemes.

(** ** Device discovery: connect_to_duet (cli/autodiscover.py) *)

Module Discover.

(** The exceptions the client can raise, by the classes the two handlers
    of [connect_to_duet] tell apart.  [ClientOSError] stands for the aiohttp
    errors that are both a ClientError and an OSError (ClientConnectorError
    is one); [TimeoutError] for the built-in one and for asyncio's. *)
Inductive pyexc : Type :=
| ClientError
| ClientOSError
| OSError
| TimeoutError
| CancelledError
| OtherError.

(** [except (ClientConnectorError, ClientError, CancelledError,
    asyncio TimeoutError, OSError)] around [duet.connect()]. *)
Definition caught_on_connect (e : pyexc) : bool :=
  match e with OtherError => false | _ => true end.

(** [except (ClientError, TimeoutError, CancelledError, asyncio
    TimeoutError)] around [duet.rr_model(...)]. *)
Definition caught_on_model (e : pyexc) : bool :=
  match e with
  | ClientError | ClientOSError | TimeoutError | CancelledError => true
  | OSError | OtherError => false
  end.

(** What leaves [connect_to_duet] as an exception. *)
Inductive failure : Type :=
| FromClient (e : pyexc)
| KeyError
| TypeError.

Inductive call : Type :=
| Connect
| Model (kw : kwargs)
| Close.

(** The dict that [connect_to_duet] returns. *)
Record discovered : Type := Discovered {
  duet_uri : string;
  duet_password : string;
  duet_unique_id : string }.

Inductive ending : Type :=
| Returned (r : option discovered)
| Raised (f : failure).

Definition board_kwargs : kwargs := Kwargs "boards[0]" None None None None None.

(** [board['uniqueId']] *)
Definition unique_id (board : node) : failure + node :=
  match board with
  | JDict d =>
      match dict_get d "uniqueId" with
      | Some u => inr u
      | None => inl KeyError
      end
  | _ => inl TypeError
  end.

Section Connect.
(** The client: its state, the constructor [RepRapFirmware(address,
    password)] and the three calls, each returning or raising. *)
Variable Dev : Type.
Variable make : string -> string -> Dev.
Variable connect : Dev -> Dev * option pyexc.
Variable rr_model : kwargs -> Dev -> Dev * (pyexc + response).
Variable close : Dev -> Dev * option pyexc.
(** The text an f-string renders for a value. *)
Variable format : node -> string.

(** [await duet.close()], then [k]; a raising [close] ends the function. *)
Definition closing (d : Dev) (log : list call) (k : ending)
  : Dev * list call * ending :=
  match close d with
  | (d', None) => (d', log ++ [Close], k)
  | (d', Some e) => (d', log ++ [Close], Raised (FromClient e))
  end.

(** The result carries the client's final state and the calls made on
    it, in order. *)
Definition connect_to_duet (ip_address password : string)
  : Dev * list call * ending :=
  let duet := make ip_address password in
  match connect duet with
  | (d1, Some e) =>
      if caught_on_connect e
      then closing d1 [Connect] (Returned None)
      else (d1, [Connect], Raised (FromClient e))
  | (d1, None) =>
      match rr_model board_kwargs d1 with
      | (d2, inl e) =>
          (* finally: close; then the handler's return, or the exception *)
          closing d2 [Connect; Model board_kwargs]
            (if caught_on_model e then Returned None
             else Raised (FromClient e))
      | (d2, inr resp) =>
          let board := result resp in
          match close d2 with
          | (d3, Some e) =>
              (d3, [Connect; Model board_kwargs; Close], Raised (FromClient e))
          | (d3, None) =>
              match unique_id board with
              | inl f => (d3, [Connect; Model board_kwargs; Close], Raised f)
              | inr u =>
                  (d3, [Connect; Model board_kwargs; Close],
                   Returned (Some (Discovered ip_address password (format u))))
              end
          end
      end
  end.
End Connect.

Definition closes (log : list call) : nat :=
  List.length (filter (fun c => match c with Close => true | _ => false end) log).

End Discover.

(** [k'] is the key [k] or a key of the subtree of [k]: [k], a dot, and
    more. *)
Definition below (k k' : string) : Prop :=
  k' = k \/ exists t, k' = (k ++ "." ++ t)%string.

(** The string has a dot. *)
Fixpoint has_dot (s : string) : bool :=
  match s with
  | EmptyString => false
  | String c r => Ascii.eqb c "."%char || has_dot r
  end.

(** * Properties *)

(** ** Dictionaries *)

Lemma dict_get_set_same (d : dict) k v : dict_get (dict_set d k v) k = Some v.
Proof.
  induction d as [|[k' v'] r IH]; simpl.
  - now rewrite String.eqb_refl.
  - destruct (String.eqb k' k) eqn:E; simpl; rewrite E; auto.
Qed.

Lemma dict_get_set_other (d : dict) k k' v :
  k <> k' -> dict_get (dict_set d k v) k' = dict_get d k'.
Proof.
  intros Hne. induction d as [|[k0 v0] r IH]; simpl.
  - apply String.eqb_neq in Hne. now rewrite Hne.
  - destruct (String.eqb k0 k) eqn:E; simpl.
    + apply String.eqb_eq in E. subst k0.
      apply String.eqb_neq in Hne. now rewrite Hne.
    + now rewrite IH.
Qed.

Lemma dict_get_none_keys (d : dict) k : dict_get d k = None <-> ~ In k (keys d).
Proof.
  induction d as [|[k' v] r IH]; simpl.
  - tauto.
  - destruct (String.eqb k' k) eqn:E.
    + apply String.eqb_eq in E. split; [discriminate | tauto].
    + apply String.eqb_neq in E. rewrite IH. tauto.
Qed.

Lemma dict_get_some_keys (d : dict) k v : dict_get d k = Some v -> In k (keys d).
Proof.
  intros H. destruct (in_dec string_dec k (keys d)) as [|N]; auto.
  apply dict_get_none_keys in N. congruence.
Qed.

Lemma dict_get_in (d : dict) k v : dict_get d k = Some v -> In (k, v) d.
Proof.
  induction d as [|[k' v'] r IH]; simpl; [discriminate|].
  destruct (String.eqb k' k) eqn:E.
  - apply String.eqb_eq in E. intros [= <-]. subst. auto.
  - auto.
Qed.

Lemma in_dict_get (d : dict) k v :
  NoDup (keys d) -> In (k, v) d -> dict_get d k = Some v.
Proof.
  induction d as [|[k' v'] r IH]; simpl; [tauto|].
  intros Hnd [E|Hin].
  - inversion E; subst. now rewrite String.eqb_refl.
  - inversion Hnd; subst.
    destruct (String.eqb k' k) eqn:E.
    + apply String.eqb_eq in E. subst.
      exfalso. apply H1. change k with (fst (k, v)). now apply in_map.
    + auto.
Qed.

Lemma dict_get_split (d : dict) k v :
  dict_get d k = Some v ->
  exists pre post, d = pre ++ (k, v) :: post /\ ~ In k (keys pre).
Proof.
  induction d as [|[k' v'] r IH]; simpl; [discriminate|].
  destruct (String.eqb k' k) eqn:E.
  - apply String.eqb_eq in E. intros [= <-]. subst.
    exists [], r. simpl. tauto.
  - intros H. destruct (IH H) as (pre & post & -> & Hn).
    exists ((k', v') :: pre), post. split; [reflexivity|].
    simpl. apply String.eqb_neq in E. tauto.
Qed.

Lemma dict_set_fresh (d : dict) k v :
  ~ In k (keys d) -> dict_set d k v = d ++ [(k, v)].
Proof.
  induction d as [|[k' v'] r IH]; simpl; auto.
  intros Hn. destruct (String.eqb k' k) eqn:E.
  - apply String.eqb_eq in E. tauto.
  - rewrite IH; tauto.
Qed.

Lemma dict_set_present (d : dict) k v :
  dict_get d k = Some v -> dict_set d k v = d.
Proof.
  induction d as [|[k' v'] r IH]; simpl; [discriminate|].
  destruct (String.eqb k' k) eqn:E.
  - now intros [= ->].
  - intros H. now rewrite IH.
Qed.

Lemma dict_set_set (d : dict) k v w :
  dict_set (dict_set d k v) k w = dict_set d k w.
Proof.
  induction d as [|[k' v'] r IH]; simpl.
  - now rewrite String.eqb_refl.
  - destruct (String.eqb k' k) eqn:E; simpl; rewrite E; congruence.
Qed.


Lemma dict_get_pop_same (d : dict) k : dict_get (dict_pop d k) k = None.
Proof.
  induction d as [|[k' v'] r IH]; simpl; auto.
  destruct (String.eqb k' k) eqn:E; simpl; auto. now rewrite E.
Qed.

Lemma dict_get_pop_other (d : dict) k k' :
  k <> k' -> dict_get (dict_pop d k) k' = dict_get d k'.
Proof.
  intros Hne. induction d as [|[k0 v0] r IH]; simpl; auto.
  destruct (String.eqb k0 k) eqn:E; simpl.
  - apply String.eqb_eq in E. subst.
    apply String.eqb_neq in Hne. now rewrite Hne.
  - now rewrite IH.
Qed.

Lemma dict_pop_incl (d : dict) k : incl (dict_pop d k) d.
Proof. intros x Hx. unfold dict_pop in Hx. now apply filter_In in Hx. Qed.

Lemma dict_update_get (dk r : dict) k :
  dict_get dk k = None -> dict_get (dict_update r dk) k = dict_get r k.
Proof.
  unfold dict_update. revert r.
  induction dk as [|[k' v'] dk IH]; simpl; intros r H; auto.
  destruct (String.eqb k' k) eqn:E; [discriminate|].
  rewrite IH by assumption. apply dict_get_set_other.
  now apply String.eqb_neq.
Qed.

Lemma dict_update_same (dk d : dict) :
  NoDup (keys d) -> incl dk d -> dict_update d dk = d.
Proof.
  unfold dict_update. intros Hnd.
  induction dk as [|[k v] dk IH]; simpl; intros Hincl; auto.
  rewrite dict_set_present.
  - apply IH. intros x Hx. apply Hincl. now right.
  - apply in_dict_get; auto. apply Hincl. now left.
Qed.

(** ** merge_dictionary *)

(** One case split on the next call or test of the merge loop. *)
Ltac merge_step :=
  match goal with
  | |- context [obind (lift_exn ?x) _] => destruct (lift_exn x) eqn:?; simpl
  | |- context [obind (merge_items ?r ?a ?b ?c) _] =>
      destruct (merge_items r a b c) eqn:?; simpl
  | |- context [obind (?r (JDict ?a) ?b) _] => destruct (r (JDict a) b) eqn:?; simpl
  | |- context [if ?x then _ else _] => destruct x eqn:?
  end.

Section MergeFacts.
Variable rec : node -> node -> outcome dict.

(** The loop over a concatenation is the loop over the first part
    followed by the loop over the second. *)
Lemma merge_entries_app pre rest destination result dk :
  merge_entries rec (pre ++ rest) destination result dk =
  (st <- merge_entries rec pre destination result dk ;;
   merge_entries rec rest destination (fst st) (snd st)).
Proof.
  revert result dk.
  induction pre as [|[k v] pre IH]; intros result dk; simpl; [reflexivity|].
  destruct v; simpl; repeat (merge_step; auto).
Qed.

(** An entry whose list is longer than a non-empty destination list stops
    the loop with the ValueError. *)
Lemma merge_entries_longer k vs post d ws result dk :
  dict_get d k = Some (JList ws) ->
  0 < List.length ws < List.length vs ->
  merge_entries rec ((k, JList vs) :: post) (JDict d) result dk =
  Raise LengthMismatch.
Proof.
  intros Hget [Hpos Hlt]. simpl. rewrite Hget. simpl.
  destruct (Nat.eqb (List.length ws) 0) eqn:E0.
  - apply Nat.eqb_eq in E0. lia.
  - apply Nat.ltb_lt in Hlt. now rewrite Hlt.
Qed.
End MergeFacts.

Lemma merge_dictionary_dict items d :
  merge_dictionary (JDict items) (JDict d) =
  (st <- merge_entries merge_dictionary items (JDict d) [] d ;;
   Ok (dict_update (fst st) (snd st))).
Proof. destruct items; reflexivity. Qed.

(** C3, as stated, fails on an empty destination list: the check for an
    empty destination comes first, and the destination's (empty) list is
    what the merged dict holds. *)
Lemma merge_longer_source_empty_destination :
  dict_get [("a", JList [JNum 1])] "a" = Some (JList [JNum 1]) /\
  dict_get [("a", JList [])] "a" = Some (JList []) /\
  List.length (@nil node) < List.length [JNum 1] /\
  merge_dictionary (JDict [("a", JList [JNum 1])]) (JDict [("a", JList [])])
  = Ok [("a", JList [])].
Proof. repeat split; simpl; lia. Qed.

(** C3 (amended): when source and destination share a key whose source
    value is a list strictly longer than the destination's list, and that
    destination list is not empty, the merge returns no result; it raises
    the length-mismatch ValueError whenever the entries of the source that
    precede this key merge without an exception. *)
Theorem merge_length_mismatch (s d : dict) k vs ws :
  dict_get s k = Some (JList vs) ->
  dict_get d k = Some (JList ws) ->
  0 < List.length ws < List.length vs ->
  (forall r, merge_dictionary (JDict s) (JDict d) <> Ok r) /\
  (forall pre post r0,
      s = pre ++ (k, JList vs) :: post ->
      merge_dictionary (JDict pre) (JDict d) = Ok r0 ->
      merge_dictionary (JDict s) (JDict d) = Raise LengthMismatch).
Proof.
  intros Hs Hd Hlen. split.
  - destruct (dict_get_split _ _ Hs) as (pre & post & -> & _).
    intros r. rewrite merge_dictionary_dict, merge_entries_app.
    destruct (merge_entries merge_dictionary pre (JDict d) [] d) as [[res dk]| | |];
      cbn [obind fst snd]; try discriminate.
    now rewrite merge_entries_longer with (ws := ws).
  - intros pre post r0 -> Hpre.
    rewrite merge_dictionary_dict in *. rewrite merge_entries_app.
    destruct (merge_entries merge_dictionary pre (JDict d) [] d) as [[res dk]| | |];
      cbn [obind fst snd] in *; try discriminate.
    now rewrite merge_entries_longer with (ws := ws).
Qed.

Lemma merge_length_mismatch_witness :
  merge_dictionary
    (JDict [("n", JNum 1); ("a", JList [JNum 1; JNum 2]); ("z", JNum 0)])
    (JDict [("a", JList [JNum 7])])
  = Raise LengthMismatch.
Proof.
  refine (proj2 (@merge_length_mismatch
                   [("n", JNum 1); ("a", JList [JNum 1; JNum 2]); ("z", JNum 0)]
                   [("a", JList [JNum 7])] "a" [JNum 1; JNum 2] [JNum 7]
                   eq_refl eq_refl _)
                [("n", JNum 1)] [("z", JNum 0)] [("n", JNum 1); ("a", JList [JNum 7])]
                eq_refl eq_refl).
  simpl. lia.
Defined.

Lemma wf_node_list l : wf_node (JList l) <-> Forall wf_node l.
Proof.
  induction l as [|x r IH]; simpl.
  - split; auto.
  - simpl in IH. rewrite IH. split.
    + intros [? ?]. now constructor.
    + intros H. inversion H. tauto.
Qed.

Lemma wf_node_dict d :
  wf_node (JDict d) <-> NoDup (keys d) /\ Forall (fun kv => wf_node (snd kv)) d.
Proof.
  simpl. apply and_iff_compat_l.
  induction d as [|x r IH]; simpl.
  - split; auto.
  - rewrite IH. split.
    + intros [? ?]. now constructor.
    + intros H. inversion H. tauto.
Qed.

Lemma merge_items_self l :
  Forall self_merge l ->
  forall pre suf, l = pre ++ suf ->
  merge_items merge_dictionary suf (JList l) (List.length pre) = Ok suf.
Proof.
  intros Hl pre suf. revert pre.
  induction suf as [|item suf IH]; intros pre E; [reflexivity|].
  cbn [merge_items py_index].
  assert (Hn : nth_error l (List.length pre) = Some item).
  { subst l. rewrite nth_error_app2 by lia. now rewrite Nat.sub_diag. }
  rewrite Hn. cbn [lift_exn obind].
  assert (Hrest : merge_items merge_dictionary suf (JList l) (S (List.length pre)) = Ok suf).
  { replace (S (List.length pre)) with (List.length (pre ++ [item])).
    - apply IH. rewrite <- app_assoc. exact E.
    - rewrite length_app. simpl. lia. }
  assert (Hq : self_merge item).
  { rewrite Forall_forall in Hl. apply Hl. subst l. apply in_or_app. right. now left. }
  destruct item; rewrite ?Hrest; cbn [obind]; try reflexivity.
  now rewrite (Hq d eq_refl).
Qed.

Lemma merge_entries_self (x : dict) :
  NoDup (keys x) ->
  forall todo done dk,
    x = done ++ todo ->
    Forall self_entry todo ->
    incl dk x ->
    exists dk', incl dk' x /\
      merge_entries merge_dictionary todo (JDict x) done dk = Ok (x, dk').
Proof.
  intros Hnd todo.
  induction todo as [|[k v] rest IH]; intros done dk E Hgood Hdk.
  - exists dk. rewrite app_nil_r in E. subst. auto.
  - assert (Hget : dict_get x k = Some v).
    { apply in_dict_get; auto. subst x. apply in_or_app. right. now left. }
    assert (Hfresh : ~ In k (keys done)).
    { subst x. unfold keys in Hnd. rewrite map_app in Hnd. simpl in Hnd.
      apply NoDup_remove_2 in Hnd. intros Hin. apply Hnd.
      apply in_or_app. now left. }
    assert (Hset : dict_set done k v = done ++ [(k, v)])
      by now apply dict_set_fresh.
    assert (E' : x = (done ++ [(k, v)]) ++ rest)
      by now rewrite <- app_assoc.
    inversion Hgood as [|? ? Hkv Hrest]; subst.
    assert (Hpop : incl (dict_pop dk k) (done ++ (k, v) :: rest)).
    { intros y Hy. apply Hdk. now apply dict_pop_incl in Hy. }
    unfold self_entry in Hkv. cbn [snd] in Hkv.
    destruct v; cbn [merge_entries py_get]; rewrite Hget; cbn [lift_exn obind];
      try (rewrite Hset; apply IH; assumption).
    + (* a list *)
      rewrite Hset. cbn [py_len lift_exn obind].
      assert (Hsame : dict_set (done ++ [(k, JList l)]) k (JList l)
                      = done ++ [(k, JList l)]).
      { rewrite <- Hset. apply dict_set_set. }
      destruct (Nat.eqb (List.length l) 0).
      * rewrite Hsame. apply IH; assumption.
      * rewrite Nat.ltb_irrefl.
        pose proof (merge_items_self Hkv [] l eq_refl) as Hitems.
        cbn [List.length] in Hitems. rewrite Hitems.
        cbn [obind]. rewrite Hsame. apply IH; assumption.
    + (* a dict *)
      rewrite (Hkv d eq_refl). cbn [obind]. rewrite Hset. apply IH; assumption.
Qed.

Lemma merge_self_node (n : node) :
  wf_node n -> self_merge n /\ (forall l, n = JList l -> Forall self_merge l).
Proof.
  induction n as [| | | |l IH|d IH] using node_rect'; intros Hwf.
  1-4: split; intros ? [=].
  - (* list *)
    split; [intros ? [=]|]. intros l' [= <-].
    apply wf_node_list in Hwf.
    rewrite Forall_forall in *. intros x Hx. now apply IH; auto.
  - (* dict *)
    split; [|intros ? [=]]. intros d' [= <-].
    apply wf_node_dict in Hwf. destruct Hwf as [Hnd Hwf].
    rewrite merge_dictionary_dict.
    assert (Hgood : Forall self_entry d).
    { rewrite Forall_forall in *. intros [k v] Hin.
      specialize (IH _ Hin (Hwf _ Hin)). cbn [snd] in IH.
      unfold self_entry. cbn [snd]. destruct v; auto; try tauto.
      apply IH. reflexivity. }
    destruct (@merge_entries_self d Hnd d [] d eq_refl Hgood (incl_refl d))
      as (dk' & Hincl & ->).
    cbn [obind fst snd]. now rewrite dict_update_same.
Qed.

(** C8: for every dict [x] (a JSON tree with distinct keys at every
    level), [merge_dictionary(x, x)] returns, and returns [x] itself,
    entries in the same order. *)
Theorem merge_idempotent (x : dict) :
  wf_dict x -> merge_dictionary (JDict x) (JDict x) = Ok x.
Proof.
  intros Hwf. now apply (proj1 (@merge_self_node (JDict x) Hwf)).
Qed.

Lemma merge_idempotent_witness :
  merge_dictionary (JDict sample_om) (JDict sample_om) = Ok sample_om.
Proof.
  apply merge_idempotent.
  unfold wf_dict, sample_om. simpl.
  repeat split; repeat constructor; simpl; intuition discriminate.
Defined.

Lemma merge_items_slots ws suf :
  forall idx rs,
    merge_items merge_dictionary suf (JList ws) idx = Ok rs ->
    List.length rs = List.length suf /\
    forall j v w,
      nth_error suf j = Some v -> nth_error ws (idx + j) = Some w ->
      exists r, nth_error rs j = Some r /\ slot_of v w r.
Proof.
  induction suf as [|item suf IH]; intros idx rs; cbn [merge_items py_index].
  - intros [= <-]. split; [reflexivity|]. intros [|j] ? ? [=].
  - destruct (nth_error ws idx) as [d|] eqn:Hd; [|discriminate].
    cbn [lift_exn obind].
    assert (Hgen : forall r0 rest,
               merge_items merge_dictionary suf (JList ws) (S idx) = Ok rest ->
               slot_of item d r0 ->
               List.length (r0 :: rest) = List.length (item :: suf) /\
               forall j v w,
                 nth_error (item :: suf) j = Some v ->
                 nth_error ws (idx + j) = Some w ->
                 exists r, nth_error (r0 :: rest) j = Some r /\ slot_of v w r).
    { intros r0 rest Hrest Hslot. destruct (IH _ _ Hrest) as [Hlen Hnth].
      split; [simpl; now rewrite Hlen|].
      intros [|j] v w; simpl.
      - rewrite Nat.add_0_r, Hd. intros [= <-] [= <-]. eauto.
      - intros Hv Hw. apply Hnth; auto.
        now replace (S idx + j) with (idx + S j) by lia. }
    destruct d, item;
      try (destruct (merge_items merge_dictionary suf (JList ws) (S idx)) eqn:Hr;
           try discriminate; cbn [obind]; intros [= <-];
           apply Hgen; [reflexivity | reflexivity]);
      destruct (merge_dictionary (JDict _) _) as [m| | |] eqn:Hm;
      try discriminate; cbn [obind];
      destruct (merge_items merge_dictionary suf (JList ws) (S idx)) eqn:Hr;
      try discriminate; cbn [obind]; intros [= <-];
      (apply Hgen; [reflexivity | simpl; eauto]).
Qed.

Section MergeFrame.
Variable rec : node -> node -> outcome dict.

(** The loop assigns [result] and pops [dk] at the keys it meets only. *)
Lemma merge_entries_keeps items destination k :
  ~ In k (keys items) ->
  forall result dk result' dk',
    merge_entries rec items destination result dk = Ok (result', dk') ->
    dict_get result' k = dict_get result k /\
    (dict_get dk k = None -> dict_get dk' k = None).
Proof.
  induction items as [|[k0 v0] items IH]; intros Hn result dk result' dk'.
  - intros [= <- <-]. auto.
  - simpl in Hn.
    assert (Hne : k0 <> k) by tauto.
    assert (Hn' : ~ In k (keys items)) by tauto.
    specialize (IH Hn').
    destruct v0; cbn [merge_entries];
      repeat (merge_step; try discriminate);
      intros H; apply IH in H; destruct H as [Hres Hdk];
      rewrite Hres, ?dict_get_set_other by assumption;
      (split; [reflexivity|]); intros Hnone; apply Hdk;
      rewrite ?dict_get_pop_other by assumption; exact Hnone.
Qed.
End MergeFrame.

(** The part of C2 that the code satisfies: on lists of equal non-zero
    length the merged dict holds, under that key, a list of that length;
    a slot whose destination element is null holds the source's element,
    a slot whose source element is a mapping holds the recursive merge,
    and every other slot holds the source's element. *)
Lemma merge_equal_length (s d r : dict) k vs ws :
  NoDup (keys s) ->
  dict_get s k = Some (JList vs) ->
  dict_get d k = Some (JList ws) ->
  List.length vs = List.length ws -> ws <> [] ->
  merge_dictionary (JDict s) (JDict d) = Ok r ->
  exists rs,
    dict_get r k = Some (JList rs) /\
    List.length rs = List.length ws /\
    forall i v w,
      nth_error vs i = Some v -> nth_error ws i = Some w ->
      exists x, nth_error rs i = Some x /\ slot_of v w x.
Proof.
  intros Hnd Hs Hd Hlen Hne.
  destruct (dict_get_split _ _ Hs) as (pre & post & -> & Hpre).
  assert (Hpost : ~ In k (keys post)).
  { unfold keys in Hnd. rewrite map_app in Hnd. simpl in Hnd.
    apply NoDup_remove_2 in Hnd. intros Hin. apply Hnd.
    apply in_or_app. now right. }
  rewrite merge_dictionary_dict, merge_entries_app.
  destruct (merge_entries merge_dictionary pre (JDict d) [] d)
    as [[res0 dk0]| | |]; cbn [obind fst snd]; try discriminate.
  cbn [merge_entries py_get]. rewrite Hd. cbn [lift_exn obind py_len].
  destruct (Nat.eqb (List.length ws) 0) eqn:E0.
  { apply Nat.eqb_eq in E0. destruct ws; [congruence|discriminate]. }
  rewrite Hlen, Nat.ltb_irrefl.
  destruct (merge_items merge_dictionary vs (JList ws) 0) as [rs| | |] eqn:Hitems;
    cbn [obind]; try discriminate.
  destruct (merge_entries merge_dictionary post (JDict d) _ _)
    as [[res1 dk1]| | |] eqn:Hloop; cbn [obind fst snd]; try discriminate.
  intros [= <-].
  apply merge_entries_keeps with (k := k) in Hloop; [|exact Hpost].
  destruct Hloop as [Hres Hdk].
  destruct (merge_items_slots _ _ _ Hitems) as [Hl Hslots].
  exists rs. split; [|split].
  - rewrite dict_update_get by (apply Hdk, dict_get_pop_same).
    rewrite Hres. apply dict_get_set_same.
  - congruence.
  - intros i v w Hv Hw. now apply (Hslots i v w).
Qed.

(** C2 at an input of equal lengths: the slot whose destination element
    is neither null nor paired with a mapping holds the source's element 1,
    not the destination's element 2. *)
Example merge_equal_length_scalar_slot :
  merge_dictionary (JDict [("a", JList [JNum 1])]) (JDict [("a", JList [JNum 2])])
  = Ok [("a", JList [JNum 1])].
Proof. reflexivity. Qed.

Lemma dict_in_pop_other (d : dict) k k' :
  k <> k' -> dict_in k' (dict_pop d k) = dict_in k' d.
Proof. intros H. unfold dict_in. now rewrite dict_get_pop_other. Qed.

Lemma dict_in_pop_same (d : dict) k : dict_in k (dict_pop d k) = false.
Proof. unfold dict_in. now rewrite dict_get_pop_same. Qed.

Lemma dict_pop_absent (d : dict) k : dict_in k d = false -> dict_pop d k = d.
Proof.
  unfold dict_in. induction d as [|[k' v] r IH]; simpl; auto.
  destruct (String.eqb k' k); [discriminate|]. simpl. intros H. now rewrite IH.
Qed.

Lemma keys_dict_pop (d : dict) k :
  keys (dict_pop d k) = filter (fun k' => negb (String.eqb k' k)) (keys d).
Proof.
  induction d as [|[k' v] r IH]; simpl; auto.
  destruct (String.eqb k' k); simpl; now rewrite IH.
Qed.

(** ** The changed set *)

Lemma seqs_changes_fold stored (l acc : dict) k :
  NoDup (keys l) ->
  (forall k', In k' (keys l) -> dict_get acc k' = None) ->
  dict_get
    (fold_left
       (fun changes kv =>
          match dict_get stored (fst kv) with
          | Some old =>
              if negb (py_eq old (snd kv)) then dict_set changes (fst kv) (snd kv)
              else changes
          | None => changes
          end) l acc) k =
  match dict_get acc k with
  | Some v => Some v
  | None =>
      match dict_get l k, dict_get stored k with
      | Some v, Some old => if py_eq old v then None else Some v
      | _, _ => None
      end
  end.
Proof.
  revert acc. induction l as [|[k0 v0] rest IH]; intros acc Hnd Hacc.
  - simpl. now destruct (dict_get acc k).
  - inversion Hnd as [|? ? Hk0 Hrest]; subst.
    cbn [fold_left fst snd]. rewrite IH; auto.
    + cbn [dict_get].
      destruct (String.eqb k0 k) eqn:E.
      * apply String.eqb_eq in E. subst k0.
        rewrite (Hacc k) by now left.
        assert (dict_get rest k = None) as -> by now apply dict_get_none_keys.
        destruct (dict_get stored k) as [old|].
        -- destruct (py_eq old v0); simpl.
           ++ now rewrite (Hacc k) by now left.
           ++ now rewrite dict_get_set_same.
        -- now rewrite (Hacc k) by now left.
      * apply String.eqb_neq in E.
        destruct (dict_get stored k0) as [old|]; [|reflexivity].
        destruct (negb (py_eq old v0)); [|reflexivity].
        now rewrite dict_get_set_other.
    + intros k' Hk'.
      assert (k0 <> k') by (intros ->; contradiction).
      destruct (dict_get stored k0) as [old|];
        [destruct (negb (py_eq old v0))|];
        rewrite ?dict_get_set_other by assumption;
        apply Hacc; now right.
Qed.

(** A key is in the changed set exactly when it has a stored counter and
    a polled counter that differ; its value there is the polled one. *)
Lemma seqs_changes_spec stored polled k v :
  NoDup (keys polled) ->
  dict_get (seqs_changes stored polled) k = Some v <->
  exists old, dict_get stored k = Some old /\
              dict_get polled k = Some v /\
              py_eq old v = false.
Proof.
  intros Hnd. unfold seqs_changes.
  rewrite seqs_changes_fold by (auto; intros; reflexivity).
  cbn [dict_get].
  destruct (dict_get polled k) as [v'|]; [|split; [discriminate|intros (? & _ & [=] & _)]].
  destruct (dict_get stored k) as [old|]; [|split; [discriminate|intros (? & [=] & _)]].
  destruct (py_eq old v') eqn:E; split.
  - discriminate.
  - intros (old' & [= <-] & [= <-] & H). congruence.
  - intros [= <-]. eauto.
  - intros (old' & [= <-] & [= <-] & H). reflexivity.
Qed.

(** ** tick on a printer without baseline *)

Section PrinterFacts.
Variable Api : Type.
Variable rr_model : kwargs -> Api -> Api * option response.
Variable rr_reply : option bool -> Api -> Api * option string.

Notation printer := (DuetPrinter Api).
Notation tick := (tick rr_model rr_reply).
Notation _fetch_full_status := (_fetch_full_status rr_model).
Notation _fetch_objectmodel_recursive := (_fetch_objectmodel_recursive rr_model).
Notation _handle_om_changes := (_handle_om_changes rr_model rr_reply).
Notation fetch_changed := (fetch_changed rr_model).
Notation fetch_reply := (fetch_reply rr_reply).
Notation http_503_callback := (http_503_callback rr_reply).
Notation drain := (drain rr_reply).
Notation delivers := (delivers rr_reply).
Notation fetch_subtrees := (fetch_subtrees rr_model).

(** C1 (amended): on a printer whose [om] is None one tick runs the full
    recursive fetch and nothing else; when it returns, [om] is the
    fetched root (defined when the board sent a mapping) and [seqs] is
    what it was: a printer without counters still has none. *)
Theorem tick_uninitialized fuel (p p' : printer) :
  om p = None ->
  tick fuel p = (p', Ok tt) ->
  exists c res,
    _fetch_full_status fuel (io p) = (c, Ok res) /\
    io p' = c /\
    om p' = match result res with JDict d => Some d | _ => None end /\
    seqs p' = seqs p /\
    _reply p' = _reply p.
Proof.
  intros Hom. unfold tick, bind, on_api. rewrite Hom.
  destruct (_fetch_full_status fuel (io p)) as [c [res| | |]];
    try discriminate.
  unfold store. destruct (result res) eqn:E; try discriminate;
    unfold modify; intros [= <-]; exists c, res; simpl; rewrite E; auto.
Qed.

(** ** What the steps of a tick leave alone *)

Lemma fetch_changed_frame fuel ks (p p' : printer) out :
  fetch_changed fuel ks p = (p', out) ->
  seqs p' = seqs p /\ _reply p' = _reply p /\
  _wait_for_reply p' = _wait_for_reply p.
Proof.
  revert p. induction ks as [|k ks IH]; intros p; simpl.
  - intros [= <- <-]. auto.
  - destruct (String.eqb k "reply"); [apply IH|].
    unfold bind, on_api, om_setitem.
    destruct (_fetch_objectmodel_recursive fuel (subtree_kwargs k) (io p))
      as [c [res| | |]]; try (intros [= <- <-]; auto).
    cbn [om set_io]. destruct (om p); try (intros [= <- <-]; auto).
    intros H. apply IH in H. exact H.
Qed.

Lemma fetch_reply_frame changes (p p' : printer) out :
  fetch_reply changes p = (p', out) ->
  seqs p' = seqs p /\ om p' = om p.
Proof.
  unfold fetch_reply, bind, on_api, wake, bind, modify, call_rr_reply.
  destruct (dict_in "reply" changes); [|intros [= <- <-]; auto].
  destruct (rr_reply None (api (io p))) as [a [r|]];
    intros [= <- <-]; auto.
Qed.

Lemma handle_frame_seqs fuel changes (p p' : printer) out :
  _handle_om_changes fuel changes false p = (p', out) ->
  seqs p' = seqs p.
Proof.
  unfold _handle_om_changes, bind.
  destruct (fetch_reply changes p) as [q o] eqn:Hr.
  apply fetch_reply_frame in Hr. destruct Hr as [Hs _].
  destruct o; try (intros [= <- <-]; auto).
  destruct (dict_in "volChanges" changes); unfold ret; cbn beta iota;
    intros H; apply fetch_changed_frame in H; destruct H as [H _]; congruence.
Qed.

(** C4 (amended): once the poll of "seqs" has returned, the polled
    counters are the stored ones, whatever happens afterwards in the
    tick: after a tick in which a subtree fetch raised, the stored
    counter of every key, the failed one included, holds the polled
    value. *)
Theorem tick_advances_counters fuel (p p' : printer) o stored a resp polled out :
  om p = Some o ->
  seqs p = Some stored ->
  rr_model seqs_kwargs (api (io p)) = (a, Some resp) ->
  result resp = JDict polled ->
  tick fuel p = (p', out) ->
  seqs p' = Some polled.
Proof.
  intros Hom Hseqs Hpoll Hres.
  unfold tick, bind, on_api, call_rr_model. rewrite Hom, Hpoll, Hseqs, Hres.
  unfold modify.
  destruct (is_empty (seqs_changes stored polled)).
  - intros [= <- <-]. reflexivity.
  - intros H. apply handle_frame_seqs in H. rewrite H. reflexivity.
Qed.

(** ** The overload drain *)

(** C5 (amended): when the first read of the drain returns the empty
    string, the drain makes exactly that one read, stores nothing, and
    wakes the waiters on the reply stored before the drain, which it
    leaves in place (None when no reply was ever stored). *)
Theorem drain_first_read_empty (p : printer) a :
  rr_reply (Some true) (api (io p)) = (a, Some "") ->
  http_503_callback p =
  (Printer
     (Client a (history (io p) ++ [CallReply (Some true); Woken (_reply p)]))
     (om p) (seqs p) (_reply p) false,
   Ok tt).
Proof.
  intros H. unfold http_503_callback, bind, wake, bind, modify.
  cbn [drain]. unfold bind, on_api, call_rr_reply. rewrite H.
  unfold set_flag, set_io, record. cbn. now rewrite <- app_assoc.
Qed.

Lemma retained_last old rs r :
  rs <> [] -> last rs "" = r -> r <> "" -> retained old rs = Some r.
Proof.
  revert old. induction rs as [|x rs IH]; intros old Hne Hlast Hr; [congruence|].
  unfold retained in *. cbn [fold_left].
  destruct rs as [|y rs].
  - simpl in *. subst x. apply String.eqb_neq in Hr. now rewrite Hr.
  - apply IH; [discriminate | exact Hlast | exact Hr].
Qed.

Lemma drain_outcome n (p p' : printer) out :
  drain n p = (p', out) -> out = Ok tt \/ out = Raise TransportError.
Proof.
  revert p. induction n as [|n IH]; intros p; simpl.
  - intros [= <- <-]. auto.
  - unfold bind, on_api, call_rr_reply, modify.
    destruct (rr_reply (Some true) (api (io p))) as [a [r|]].
    + destruct (String.eqb r ""); [intros [= <- <-]; auto | apply IH].
    + intros [= <- <-]. auto.
Qed.

Lemma drain_spec n (p p' : printer) :
  drain n p = (p', Ok tt) ->
  exists rs,
    delivers (api (io p)) rs (api (io p')) /\
    history (io p') = history (io p) ++ reads rs /\
    List.length rs <= n /\
    Forall (fun r => r <> "") (removelast rs) /\
    (List.length rs < n -> rs <> [] /\ last rs "" = "") /\
    _reply p' = retained (_reply p) rs /\
    om p' = om p /\ seqs p' = seqs p /\
    _wait_for_reply p' = _wait_for_reply p.
Proof.
  revert p. induction n as [|n IH]; intros p; simpl.
  - intros [= <-]. exists []. simpl. rewrite app_nil_r.
    repeat split; auto; try lia. constructor.
  - unfold bind, on_api, call_rr_reply, modify.
    destruct (rr_reply (Some true) (api (io p))) as [a [r|]] eqn:Hr;
      [|discriminate].
    destruct (String.eqb r "") eqn:E.
    + apply String.eqb_eq in E. subst r. intros [= <-].
      exists [""]. simpl. repeat split; auto; try lia; try discriminate.
      econstructor; [eassumption | constructor].
    + intros H. apply IH in H.
      destruct H as (rs & Hd & Hh & Hlen & Hne & Hstop & Hrep & Hom & Hs & Hf).
      exists (r :: rs). cbn [io set_io set_reply api history _reply om seqs
                             _wait_for_reply] in *.
      repeat split; auto.
      * econstructor; eassumption.
      * rewrite Hh. rewrite <- app_assoc. reflexivity.
      * simpl. lia.
      * destruct rs; [constructor|].
        change (removelast (r :: s :: rs)) with (r :: removelast (s :: rs)).
        constructor; auto. now apply String.eqb_neq.
      * discriminate.
      * simpl in H. destruct Hstop as [Hnil Hlast]; [lia|].
        destruct rs; [congruence | exact Hlast].
      * rewrite Hrep. unfold retained. simpl. now rewrite E.
Qed.

(** C6: the drain makes at least one and at most ten reads; only the
    last value read can be the empty string, and fewer than ten reads
    means that the last one was empty; the reply kept is the last value
    read that is not empty; after ten values that are not empty it stops
    with the tenth as the reply.  It always terminates, and only a
    transport error can make it raise. *)
Theorem drain_bounded (p p' : printer) out :
  http_503_callback p = (p', out) ->
  (out = Ok tt \/ out = Raise TransportError) /\
  (out = Ok tt ->
   exists rs,
     delivers (api (io p)) rs (api (io p')) /\
     history (io p') = history (io p) ++ reads rs ++ [Woken (_reply p')] /\
     1 <= List.length rs <= 10 /\
     Forall (fun r => r <> "") (removelast rs) /\
     (List.length rs < 10 -> last rs "" = "") /\
     _reply p' = retained (_reply p) rs /\
     (List.length rs = 10 -> last rs "" <> "" ->
      _reply p' = Some (last rs ""))).
Proof.
  unfold http_503_callback, bind.
  destruct (drain 10 p) as [q o] eqn:Hd.
  pose proof (drain_outcome _ _ Hd) as Ho.
  destruct Ho as [-> | ->]; [|intros [= <- <-]; split; [auto|discriminate]].
  apply drain_spec in Hd.
  destruct Hd as (rs & Hdel & Hh & Hlen & Hne & Hstop & Hrep & _).
  unfold wake, bind, modify. intros [= <- <-]. split; [auto|]. intros _.
  exists rs. cbn [io set_io set_flag record api history _reply].
  assert (Hpos : rs <> []).
  { destruct (Nat.eq_dec (List.length rs) 10) as [E|N].
    - destruct rs; [discriminate|congruence].
    - apply Hstop. lia. }
  repeat split; auto.
  - rewrite Hh. now rewrite <- app_assoc.
  - destruct rs; [congruence | simpl; lia].
  - intros H. now apply Hstop.
  - intros _ Hl. rewrite Hrep. now apply retained_last.
Qed.

(** ** The changed set of a tick *)

(** C7: on a tick with stored counters (and a baseline), a key is in
    the changed set exactly when the stored and the polled counters both
    have it with values that differ; a key without stored counter is not
    in it; the tick hands the changed set to [_handle_om_changes] unless
    it is empty, and in that case it ends after the poll of "seqs", its
    only call on the client, with the baseline untouched. *)
Theorem tick_changed_set fuel (p : printer) o stored a resp polled :
  om p = Some o ->
  seqs p = Some stored ->
  rr_model seqs_kwargs (api (io p)) = (a, Some resp) ->
  result resp = JDict polled ->
  NoDup (keys polled) ->
  let changes := seqs_changes stored polled in
  let q := Printer (Client a (history (io p) ++ [CallModel seqs_kwargs]))
                   (Some o) (Some polled) (_reply p) (_wait_for_reply p) in
  (forall k v,
      dict_get changes k = Some v <->
      exists old, dict_get stored k = Some old /\
                  dict_get polled k = Some v /\
                  py_eq old v = false) /\
  (forall k, dict_get stored k = None -> dict_get changes k = None) /\
  tick fuel p =
    (if is_empty changes then (q, Ok tt)
     else _handle_om_changes fuel changes false q) /\
  (changes = [] -> tick fuel p = (q, Ok tt)).
Proof.
  intros Hom Hseqs Hpoll Hres Hnd changes q.
  assert (Htick : tick fuel p =
                  (if is_empty changes then (q, Ok tt)
                   else _handle_om_changes fuel changes false q)).
  { unfold tick, bind, on_api, call_rr_model.
    rewrite Hom, Hpoll, Hseqs, Hres. unfold modify, ret.
    fold changes. unfold set_seqs, set_io. cbn. rewrite Hom.
    now destruct (is_empty changes). }
  repeat split.
  - now apply seqs_changes_spec.
  - now apply seqs_changes_spec.
  - intros k Hk. destruct (dict_get changes k) as [v|] eqn:E; [|reflexivity].
    apply seqs_changes_spec in E; auto. destruct E as (old & H & _). congruence.
  - exact Htick.
  - intros E. rewrite Htick, E. reflexivity.
Qed.

(** ** The subtrees fetched for the changed keys *)

Lemma fetch_changed_subtrees fuel ks (p p' : printer) o :
  om p = Some o ->
  fetch_changed fuel ks p = (p', Ok tt) ->
  exists fetched,
    fetch_subtrees fuel ks (io p) = (io p', Ok fetched) /\
    p' = Printer (io p') (Some (dict_update o fetched))
                 (seqs p) (_reply p) (_wait_for_reply p).
Proof.
  revert p o. induction ks as [|k ks IH]; intros p o Hom; simpl.
  - intros [= <-]. exists []. split; [reflexivity|].
    destruct p; simpl in *. now subst.
  - destruct (String.eqb k "reply"); [now apply IH|].
    unfold bind, on_api, om_setitem.
    destruct (_fetch_objectmodel_recursive fuel (subtree_kwargs k) (io p))
      as [c [res| | |]]; try discriminate.
    cbn [om set_io]. rewrite Hom. intros H.
    apply IH with (o := dict_set o k (result res)) in H; [|reflexivity].
    destruct H as (fetched & Hf & Hp').
    cbn [io set_om set_io] in Hf.
    exists ((k, result res) :: fetched). split; [now rewrite Hf|].
    exact Hp'.
Qed.


Lemma fetch_subtrees_keys fuel ks c c' fetched :
  fetch_subtrees fuel ks c = (c', Ok fetched) ->
  keys fetched = filter (fun k => negb (String.eqb k "reply")) ks /\
  forall k v, In (k, v) fetched ->
    exists c1 c2 res,
      _fetch_objectmodel_recursive fuel (subtree_kwargs k) c1 = (c2, Ok res) /\
      v = result res.
Proof.
  revert c fetched. induction ks as [|k ks IH]; intros c fetched; simpl.
  - intros [= <- <-]. split; [reflexivity | intros ? ? []].
  - destruct (String.eqb k "reply"); simpl; [now apply IH|].
    unfold bind.
    destruct (_fetch_objectmodel_recursive fuel (subtree_kwargs k) c)
      as [c1 [res| | |]] eqn:Hf; try discriminate.
    destruct (fetch_subtrees fuel ks c1) as [c2 [more| | |]] eqn:Hmore;
      try discriminate.
    intros [= <- <-]. destruct (IH _ _ Hmore) as [Hk Hv].
    split; [simpl; now rewrite Hk|].
    intros k' v [[= <- <-]|Hin]; eauto.
Qed.

Lemma dict_update_get_in (dk r : dict) k v :
  NoDup (keys dk) -> In (k, v) dk -> dict_get (dict_update r dk) k = Some v.
Proof.
  unfold dict_update. revert r.
  induction dk as [|[k0 v0] dk IH]; intros r Hnd Hin; [destruct Hin|].
  inversion Hnd as [|? ? Hk0 Hrest]; subst. cbn [fold_left fst snd].
  destruct Hin as [[= -> ->]|Hin].
  - change (fold_left (fun acc kv => dict_set acc (fst kv) (snd kv)) dk
              (dict_set r k v)) with (dict_update (dict_set r k v) dk).
    rewrite dict_update_get; [apply dict_get_set_same|].
    now apply dict_get_none_keys.
  - now apply IH.
Qed.


Lemma fetch_changed_set_seqs fuel ks (p : printer) s :
  fetch_changed fuel ks (set_seqs s p) =
  (set_seqs s (fst (fetch_changed fuel ks p)), snd (fetch_changed fuel ks p)).
Proof.
  revert p. induction ks as [|k ks IH]; intros p; simpl; [reflexivity|].
  destruct (String.eqb k "reply"); [apply IH|].
  unfold bind, on_api, om_setitem. cbn [io set_seqs].
  destruct (_fetch_objectmodel_recursive fuel (subtree_kwargs k) (io p))
    as [c [res| | |]]; try reflexivity.
  cbn [om set_io set_seqs]. destruct (om p); [|reflexivity].
  exact (IH (set_om (Some (dict_set d k (result res))) (set_io c p))).
Qed.

Lemma fetch_changed_om_other fuel ks (p p' : printer) o out k0 :
  om p = Some o ->
  ~ In k0 ks ->
  fetch_changed fuel ks p = (p', out) ->
  exists o', om p' = Some o' /\ dict_get o' k0 = dict_get o k0.
Proof.
  revert p o. induction ks as [|k ks IH]; intros p o Hom Hn; simpl.
  - intros [= <- <-]. eauto.
  - simpl in Hn. destruct (String.eqb k "reply"); [apply IH; tauto|].
    unfold bind, on_api, om_setitem.
    destruct (_fetch_objectmodel_recursive fuel (subtree_kwargs k) (io p))
      as [c [res| | |]]; try (intros [= <- <-]; eauto).
    cbn [om set_io]. rewrite Hom. intros H.
    apply IH with (o := dict_set o k (result res)) in H; [|reflexivity|tauto].
    destruct H as (o' & Ho' & Hget). exists o'. split; [exact Ho'|].
    rewrite Hget. apply dict_get_set_other. tauto.
Qed.

(** A successful run of [_handle_om_changes], stage by stage. *)
Lemma handle_success fuel changes aliased (p p' : printer) o :
  om p = Some o ->
  _handle_om_changes fuel changes aliased p = (p', Ok tt) ->
  exists q fetched,
    fetch_reply changes p = (q, Ok tt) /\
    fetch_subtrees fuel (keys (dict_pop changes "volChanges")) (io q)
    = (io p', Ok fetched) /\
    om p' = Some (dict_update o fetched).
Proof.
  intros Hom. unfold _handle_om_changes, bind.
  destruct (fetch_reply changes p) as [q [[]| | |]] eqn:Hr; try discriminate.
  assert (Hq : om q = Some o).
  { apply fetch_reply_frame in Hr. destruct Hr as [_ ->]. exact Hom. }
  destruct (dict_in "volChanges" changes) eqn:Hv.
  - destruct aliased; unfold modify, ret; cbn beta iota; intros H.
    + rewrite fetch_changed_set_seqs in H. injection H as <- Hout.
      destruct (fetch_changed fuel (keys (dict_pop changes "volChanges")) q)
        as [q' out'] eqn:Hfc. cbn [fst snd] in *. subst out'.
      apply fetch_changed_subtrees with (o := o) in Hfc; [|exact Hq].
      destruct Hfc as (fetched & Hf & ->).
      exists q, fetched. cbn. auto.
    + apply fetch_changed_subtrees with (o := o) in H; [|exact Hq].
      destruct H as (fetched & Hf & ->). exists q, fetched. cbn. auto.
  - rewrite (dict_pop_absent _ _ Hv). intros H.
    apply fetch_changed_subtrees with (o := o) in H; [|exact Hq].
    destruct H as (fetched & Hf & ->). exists q, fetched. cbn. auto.
Qed.



(** With "volChanges" in the changed set, the run is the run on the
    remaining keys: the same calls on the client, the same baseline, the
    same reply, the same outcome; the baseline's entry "volChanges" is what
    it was.  When the set is the stored counters themselves, they lose the
    key as well. *)
Lemma vol_changes_run fuel changes aliased (p p' : printer) o out :
  om p = Some o ->
  dict_in "volChanges" changes = true ->
  _handle_om_changes fuel changes aliased p = (p', out) ->
  let rest := dict_pop changes "volChanges" in
  dict_in "volChanges" rest = false /\
  ~ In "volChanges" (keys rest) /\
  (exists p2,
      _handle_om_changes fuel rest false p = (p2, out) /\
      io p2 = io p' /\ om p2 = om p' /\ _reply p2 = _reply p') /\
  (exists o', om p' = Some o' /\
              dict_get o' "volChanges" = dict_get o "volChanges") /\
  (aliased = true -> out = Ok tt -> seqs p' = Some rest).
Proof.
  intros Hom Hv H rest.
  assert (Hrest : dict_in "volChanges" rest = false) by apply dict_in_pop_same.
  assert (Hnot : ~ In "volChanges" (keys rest)).
  { apply dict_get_none_keys. apply dict_get_pop_same. }
  assert (Hrep : fetch_reply rest = fetch_reply changes).
  { unfold fetch_reply, rest. rewrite dict_in_pop_other by discriminate.
    reflexivity. }
  revert H. unfold _handle_om_changes, bind. rewrite Hv, Hrest, Hrep.
  destruct (fetch_reply changes p) as [q o0] eqn:Hr.
  assert (Hq : om q = Some o).
  { apply fetch_reply_frame in Hr. destruct Hr as [_ ->]. exact Hom. }
  destruct o0 as [[]| | |];
    try (intros [= <- <-]; repeat split; eauto; intros _ [=]).
  fold rest.
  destruct (fetch_changed fuel (keys rest) q) as [q' out'] eqn:Hfc.
  pose proof Hfc as Hother.
  apply fetch_changed_om_other with (o := o) (k0 := "volChanges") in Hother;
    [|exact Hq|exact Hnot].
  destruct Hother as (o' & Ho' & Hget).
  pose proof Hfc as Hframe. apply fetch_changed_frame in Hframe.
  destruct Hframe as (Hs & Hre & Hfl).
  destruct aliased; unfold modify, ret; cbn beta iota.
  - rewrite fetch_changed_set_seqs, Hfc. cbn [fst snd]. intros [= <- <-].
    repeat split; eauto.
  - rewrite Hfc. intros [= <- <-].
    repeat split; eauto. intros [=].
Qed.

End PrinterFacts.

(** C1, as stated, fails: the first tick defines [om] and leaves [seqs]
    undefined. *)
Lemma tick_first_leaves_seqs_undefined :
  let p := Bench.fresh Bench.idle_board in
  om p = None /\
  snd (Bench.tick 5 p) = Ok tt /\
  om (fst (Bench.tick 5 p)) =
    Some [("state", JDict [("status", JStr "idle")]);
          ("job", JDict [("layer", JNum 0)])] /\
  seqs (fst (Bench.tick 5 p)) = None.
Proof. vm_compute. auto. Qed.

Lemma tick_uninitialized_witness :
  exists c res,
    _fetch_full_status Bench.rr_model 5 (io (Bench.fresh Bench.idle_board)) = (c, Ok res) /\
    io (fst (Bench.tick 5 (Bench.fresh Bench.idle_board))) = c /\
    om (fst (Bench.tick 5 (Bench.fresh Bench.idle_board))) =
      match result res with JDict d => Some d | _ => None end /\
    seqs (fst (Bench.tick 5 (Bench.fresh Bench.idle_board))) = None /\
    _reply (fst (Bench.tick 5 (Bench.fresh Bench.idle_board))) = None.
Proof.
  apply (@tick_uninitialized _ Bench.rr_model Bench.rr_reply 5
           (Bench.fresh Bench.idle_board)).
  - reflexivity.
  - vm_compute. reflexivity.
Defined.

(** C4, as stated, fails: the fetch of "job" raises, and the stored
    counter of "job" has moved from 2 to 3 all the same. *)
Lemma tick_failed_fetch_advances_counter :
  let p := Bench.tracking Bench.failing_board None in
  seqs p = Some [("reply", JNum 5); ("job", JNum 2)] /\
  snd (Bench.tick 5 p) = Raise TransportError /\
  history (io (fst (Bench.tick 5 p))) =
    [CallModel seqs_kwargs; CallModel (subtree_kwargs "job")] /\
  seqs (fst (Bench.tick 5 p)) = Some [("reply", JNum 5); ("job", JNum 3)].
Proof. vm_compute. auto. Qed.

Lemma tick_advances_counters_witness :
  seqs (fst (Bench.tick 5 (Bench.tracking Bench.failing_board None))) =
  Some [("reply", JNum 5); ("job", JNum 3)].
Proof.
  apply (@tick_advances_counters _ Bench.rr_model Bench.rr_reply 5
           (Bench.tracking Bench.failing_board None) _
           [("job", JDict [("layer", JNum 0)])]
           [("reply", JNum 5); ("job", JNum 2)]
           Bench.failing_board
           (Bench.plain (JDict [("reply", JNum 5); ("job", JNum 3)]))
           _ (snd (Bench.tick 5 (Bench.tracking Bench.failing_board None))));
    reflexivity.
Defined.

(** C5, as stated, fails: the waiters are woken on the reply stored
    before the drain, not on an empty text. *)
Lemma drain_empty_wakes_on_old_reply :
  let p := Bench.tracking Bench.idle_board (Some "ok") in
  Bench.rr_reply (Some true) (api (io p)) = (Bench.idle_board, Some "") /\
  snd (Bench.http_503_callback p) = Ok tt /\
  history (io (fst (Bench.http_503_callback p))) =
    [CallReply (Some true); Woken (Some "ok")] /\
  _reply (fst (Bench.http_503_callback p)) = Some "ok".
Proof. vm_compute. auto. Qed.

Lemma drain_first_read_empty_witness :
  Bench.http_503_callback (Bench.tracking Bench.idle_board (Some "ok")) =
  (Printer
     (Client Bench.idle_board [CallReply (Some true); Woken (Some "ok")])
     (Some [("job", JDict [("layer", JNum 0)])])
     (Some [("reply", JNum 5); ("job", JNum 2)])
     (Some "ok") false,
   Ok tt).
Proof.
  apply (@drain_first_read_empty _ Bench.rr_reply
           (Bench.tracking Bench.idle_board (Some "ok")) Bench.idle_board).
  reflexivity.
Defined.

Lemma drain_bounded_witness :
  let p := Bench.tracking busy_board (Some "ok") in
  let p' := fst (Bench.http_503_callback p) in
  exists rs,
    delivers Bench.rr_reply (api (io p)) rs (api (io p')) /\
    history (io p') = history (io p) ++ reads rs ++ [Woken (_reply p')] /\
    1 <= List.length rs <= 10 /\
    Forall (fun r => r <> "") (removelast rs) /\
    (List.length rs < 10 -> last rs "" = "") /\
    _reply p' = retained (_reply p) rs /\
    (List.length rs = 10 -> last rs "" <> "" -> _reply p' = Some (last rs "")).
Proof.
  intros p p'.
  apply (proj2 (@drain_bounded _ Bench.rr_reply p p'
                  (snd (Bench.http_503_callback p)) (surjective_pairing _))).
  vm_compute. reflexivity.
Defined.

Lemma tick_changed_set_witness :
  let p := Bench.tracking Bench.failing_board None in
  let stored := [("reply", JNum 5); ("job", JNum 2)] in
  let polled := [("reply", JNum 5); ("job", JNum 3)] in
  dict_get (seqs_changes stored polled) "job" = Some (JNum 3) /\
  dict_get (seqs_changes stored polled) "reply" = None.
Proof.
  intros p stored polled.
  pose proof (@tick_changed_set _ Bench.rr_model Bench.rr_reply 5 p
                [("job", JDict [("layer", JNum 0)])] stored
                Bench.failing_board (Bench.plain (JDict polled)) polled
                eq_refl eq_refl eq_refl eq_refl) as H.
  cbv zeta in H.
  destruct H as (Hiff & _).
  - repeat constructor; simpl; intuition discriminate.
  - split.
    + apply Hiff. exists (JNum 2). repeat split.
    + reflexivity.
Defined.



(** * Further properties of merge_dictionary *)

Lemma dict_update_get_full (dk r : dict) k :
  NoDup (keys dk) ->
  dict_get (dict_update r dk) k =
  match dict_get dk k with Some w => Some w | None => dict_get r k end.
Proof.
  intros Hnd. destruct (dict_get dk k) as [w|] eqn:E.
  - apply dict_update_get_in; auto. now apply dict_get_in.
  - now apply dict_update_get.
Qed.

Lemma NoDup_keys_pop (d : dict) k : NoDup (keys d) -> NoDup (keys (dict_pop d k)).
Proof. intros H. rewrite keys_dict_pop. now apply NoDup_filter. Qed.

Section MergeLoopFacts.
Variable rec : node -> node -> outcome dict.

(** At a key the loop does not meet, [result] and [dk] are what they
    were. *)
Lemma merge_entries_untouched items destination k :
  ~ In k (keys items) ->
  forall result dk result' dk',
    merge_entries rec items destination result dk = Ok (result', dk') ->
    dict_get result' k = dict_get result k /\
    dict_get dk' k = dict_get dk k.
Proof.
  induction items as [|[k0 v0] items IH]; intros Hn result dk result' dk'.
  - intros [= <- <-]. auto.
  - simpl in Hn.
    assert (Hne : k0 <> k) by tauto.
    assert (Hn' : ~ In k (keys items)) by tauto.
    specialize (IH Hn').
    destruct v0; cbn [merge_entries];
      repeat (merge_step; try discriminate);
      intros H; apply IH in H; destruct H as [Hres Hdk];
      rewrite Hres, Hdk, ?dict_get_set_other, ?dict_get_pop_other by assumption;
      split; reflexivity.
Qed.

(** [dk] only ever loses entries. *)
Lemma merge_entries_dk_nodup items destination :
  forall result dk result' dk',
    NoDup (keys dk) ->
    merge_entries rec items destination result dk = Ok (result', dk') ->
    NoDup (keys dk').
Proof.
  induction items as [|[k0 v0] items IH]; intros result dk result' dk' Hnd.
  - now intros [= <- <-].
  - destruct v0; cbn [merge_entries];
      repeat (merge_step; try discriminate);
      intros H; apply IH in H; auto using NoDup_keys_pop.
Qed.
End MergeLoopFacts.

(** The merged dict at a key of the source: the entry is processed once,
    in some state [(res0, dk0)] of the loop in which [dk0] still has the
    destination's entry for the key, and what the merged dict holds is read
    off the state [(res1, dk1)] that the entry leaves. *)
Lemma merge_at_source_key (s d r : dict) k v :
  NoDup (keys s) -> NoDup (keys d) ->
  dict_get s k = Some v ->
  merge_dictionary (JDict s) (JDict d) = Ok r ->
  exists res0 dk0 res1 dk1,
    dict_get dk0 k = dict_get d k /\
    merge_entries merge_dictionary [(k, v)] (JDict d) res0 dk0 = Ok (res1, dk1) /\
    dict_get r k =
    match dict_get dk1 k with Some w => Some w | None => dict_get res1 k end.
Proof.
  intros Hs Hd Hget.
  destruct (dict_get_split _ _ Hget) as (pre & post & -> & Hpre).
  assert (Hpost : ~ In k (keys post)).
  { unfold keys in Hs. rewrite map_app in Hs. simpl in Hs.
    apply NoDup_remove_2 in Hs. intros Hin. apply Hs.
    apply in_or_app. now right. }
  rewrite merge_dictionary_dict, merge_entries_app.
  destruct (merge_entries merge_dictionary pre (JDict d) [] d)
    as [[res0 dk0]| | |] eqn:Hloop0; cbn [obind fst snd]; try discriminate.
  change ((k, v) :: post) with ([(k, v)] ++ post). rewrite merge_entries_app.
  destruct (merge_entries merge_dictionary [(k, v)] (JDict d) res0 dk0)
    as [[res1 dk1]| | |] eqn:Hstep; cbn [obind fst snd]; try discriminate.
  destruct (merge_entries merge_dictionary post (JDict d) res1 dk1)
    as [[res2 dk2]| | |] eqn:Hloop2; cbn [obind fst snd]; try discriminate.
  intros [= <-].
  pose proof Hloop0 as Hnd0. apply merge_entries_dk_nodup in Hnd0; [|exact Hd].
  pose proof Hstep as Hnd1. apply merge_entries_dk_nodup in Hnd1; [|exact Hnd0].
  pose proof Hloop2 as Hnd2. apply merge_entries_dk_nodup in Hnd2; [|exact Hnd1].
  apply merge_entries_untouched with (k := k) in Hloop0; [|exact Hpre].
  apply merge_entries_untouched with (k := k) in Hloop2; [|exact Hpost].
  destruct Hloop0 as [_ Hdk0]. destruct Hloop2 as [Hres2 Hdk2].
  exists res0, dk0, res1, dk1. repeat split; auto.
  rewrite dict_update_get_full by assumption. now rewrite Hres2, Hdk2.
Qed.

(** X1: a key that only the destination has is in the merged dict with
    the destination's value. *)
Theorem merge_keeps_destination_only (s d r : dict) k w :
  NoDup (keys d) ->
  dict_get s k = None ->
  dict_get d k = Some w ->
  merge_dictionary (JDict s) (JDict d) = Ok r ->
  dict_get r k = Some w.
Proof.
  intros Hd Hs Hget. rewrite merge_dictionary_dict.
  destruct (merge_entries merge_dictionary s (JDict d) [] d)
    as [[res dk]| | |] eqn:Hloop; cbn [obind fst snd]; try discriminate.
  intros [= <-].
  pose proof Hloop as Hnd. apply merge_entries_dk_nodup in Hnd; [|exact Hd].
  apply merge_entries_untouched with (k := k) in Hloop;
    [|now apply dict_get_none_keys].
  destruct Hloop as [_ Hdk].
  rewrite dict_update_get_full by assumption. now rewrite Hdk, Hget.
Qed.

Lemma merge_keeps_destination_only_witness :
  dict_get [("a", JNum 1); ("b", JNum 3)] "b" = Some (JNum 3).
Proof.
  apply (@merge_keeps_destination_only
           [("a", JNum 1)] [("b", JNum 3)] [("a", JNum 1); ("b", JNum 3)]
           "b" (JNum 3)).
  - repeat constructor. simpl. tauto.
  - reflexivity.
  - reflexivity.
  - reflexivity.
Defined.

(** X2: under a key whose source value is neither a dict nor a list, the
    merged dict holds the destination's value when the destination has the
    key, and the source's value otherwise. *)
Theorem merge_leaf_destination_wins (s d r : dict) k v :
  NoDup (keys s) -> NoDup (keys d) ->
  dict_get s k = Some v ->
  is_leaf v = true ->
  merge_dictionary (JDict s) (JDict d) = Ok r ->
  dict_get r k = Some (match dict_get d k with Some w => w | None => v end).
Proof.
  intros Hs Hd Hget Hleaf Hm.
  destruct (@merge_at_source_key s d r k _ Hs Hd Hget Hm)
    as (res0 & dk0 & res1 & dk1 & _ & Hstep & ->).
  destruct v; try discriminate; cbn in Hstep;
    injection Hstep as <- <-;
    now rewrite dict_get_pop_same, dict_get_set_same.
Qed.

Lemma merge_leaf_destination_wins_witness :
  dict_get [("a", JNum 2); ("b", JStr "x")] "a" = Some (JNum 2).
Proof.
  apply (@merge_leaf_destination_wins
           [("a", JNum 1); ("b", JStr "x")] [("a", JNum 2)]
           [("a", JNum 2); ("b", JStr "x")] "a" (JNum 1)).
  - repeat constructor; simpl; intuition discriminate.
  - repeat constructor. simpl. tauto.
  - reflexivity.
  - reflexivity.
  - reflexivity.
Defined.

(** X3: under a key whose source list is shorter than the destination's
    list, the merged dict holds the destination's list, whole. *)
Theorem merge_shorter_source_list (s d r : dict) k vs ws :
  NoDup (keys s) -> NoDup (keys d) ->
  dict_get s k = Some (JList vs) ->
  dict_get d k = Some (JList ws) ->
  List.length vs < List.length ws ->
  merge_dictionary (JDict s) (JDict d) = Ok r ->
  dict_get r k = Some (JList ws).
Proof.
  intros Hs Hd Hget Hdest Hlt Hm.
  destruct (@merge_at_source_key s d r k _ Hs Hd Hget Hm)
    as (res0 & dk0 & res1 & dk1 & Hdk0 & Hstep & ->).
  cbn [merge_entries py_get] in Hstep. rewrite Hdest in Hstep.
  cbn [lift_exn obind py_len] in Hstep.
  destruct (Nat.eqb (List.length ws) 0) eqn:E0.
  { apply Nat.eqb_eq in E0. lia. }
  assert (E1 : Nat.ltb (List.length ws) (List.length vs) = false)
    by (apply Nat.ltb_ge; lia).
  assert (E2 : Nat.ltb (List.length vs) (List.length ws) = true)
    by now apply Nat.ltb_lt.
  rewrite E1, E2 in Hstep. injection Hstep as <- <-.
  now rewrite Hdk0, Hdest.
Qed.

Lemma merge_shorter_source_list_witness :
  dict_get [("a", JList [JNum 7; JNum 8])] "a" = Some (JList [JNum 7; JNum 8]).
Proof.
  apply (@merge_shorter_source_list
           [("a", JList [JNum 1])] [("a", JList [JNum 7; JNum 8])]
           [("a", JList [JNum 7; JNum 8])] "a" [JNum 1] [JNum 7; JNum 8]).
  - repeat constructor. simpl. tauto.
  - repeat constructor. simpl. tauto.
  - reflexivity.
  - reflexivity.
  - simpl. lia.
  - reflexivity.
Defined.

(** X4: under a key whose source value is a list, a destination without
    that key leaves the source's list in the merged dict, and a destination
    whose value for the key has length zero (an empty list, string or dict)
    puts that empty value there: the [continue] of the empty case skips
    [dk.pop], and [result.update(dk)] writes the destination's entry back. *)
Theorem merge_list_empty_destination (s d r : dict) k vs :
  NoDup (keys s) -> NoDup (keys d) ->
  dict_get s k = Some (JList vs) ->
  merge_dictionary (JDict s) (JDict d) = Ok r ->
  (dict_get d k = None -> dict_get r k = Some (JList vs)) /\
  (forall w, dict_get d k = Some w -> py_len w = Some 0 ->
             dict_get r k = Some w).
Proof.
  intros Hs Hd Hget Hm.
  destruct (@merge_at_source_key s d r k _ Hs Hd Hget Hm)
    as (res0 & dk0 & res1 & dk1 & Hdk0 & Hstep & ->).
  cbn [merge_entries py_get] in Hstep. split.
  - intros Hnone. rewrite Hnone in Hstep.
    cbn in Hstep. injection Hstep as <- <-.
    now rewrite Hdk0, Hnone, dict_get_set_same.
  - intros w Hw Hlen. rewrite Hw in Hstep.
    cbn [lift_exn obind] in Hstep. rewrite Hlen in Hstep.
    cbn in Hstep. injection Hstep as <- <-.
    now rewrite Hdk0, Hw.
Qed.

Lemma merge_list_empty_destination_witness :
  (dict_get [("a", JList [])] "a" = None ->
   dict_get [("a", JList [])] "a" = Some (JList [JNum 1])) /\
  (forall w, dict_get [("a", JList [])] "a" = Some w -> py_len w = Some 0 ->
             dict_get [("a", JList [])] "a" = Some w).
Proof.
  apply (@merge_list_empty_destination
           [("a", JList [JNum 1])] [("a", JList [])] [("a", JList [])]
           "a" [JNum 1]).
  - repeat constructor. simpl. tauto.
  - repeat constructor. simpl. tauto.
  - reflexivity.
  - reflexivity.
Defined.

(** X5: under a key whose source value is a dict, the merged dict holds
    the merge of that dict with the destination's value for the key, the
    empty dict standing in for a missing one. *)
Theorem merge_recurses_into_dicts (s d r : dict) k v :
  NoDup (keys s) -> NoDup (keys d) ->
  dict_get s k = Some (JDict v) ->
  merge_dictionary (JDict s) (JDict d) = Ok r ->
  exists m,
    merge_dictionary (JDict v)
      (match dict_get d k with Some w => w | None => JDict [] end) = Ok m /\
    dict_get r k = Some (JDict m).
Proof.
  intros Hs Hd Hget Hm.
  destruct (@merge_at_source_key s d r k _ Hs Hd Hget Hm)
    as (res0 & dk0 & res1 & dk1 & _ & Hstep & ->).
  cbn [merge_entries py_get lift_exn obind] in Hstep.
  destruct (merge_dictionary (JDict v) _) as [m| | |] eqn:E;
    cbn [obind] in Hstep; try discriminate.
  injection Hstep as <- <-. exists m. split; [reflexivity|].
  now rewrite dict_get_pop_same, dict_get_set_same.
Qed.

Lemma merge_recurses_into_dicts_witness :
  exists m,
    merge_dictionary (JDict [("c", JNum 2)])
      (match dict_get [("b", JDict [("c", JNum 3)])] "b" with
       | Some w => w | None => JDict [] end) = Ok m /\
    dict_get [("a", JNum 1); ("b", JDict [("c", JNum 3)])] "b" = Some (JDict m).
Proof.
  apply (@merge_recurses_into_dicts
           [("a", JNum 1); ("b", JDict [("c", JNum 2)])]
           [("b", JDict [("c", JNum 3)])]
           [("a", JNum 1); ("b", JDict [("c", JNum 3)])] "b" [("c", JNum 2)]).
  - repeat constructor; simpl; intuition discriminate.
  - repeat constructor. simpl. tauto.
  - reflexivity.
  - reflexivity.
Defined.

Lemma merge_at_other_key (s d r : dict) k :
  NoDup (keys d) ->
  dict_get s k = None ->
  merge_dictionary (JDict s) (JDict d) = Ok r ->
  dict_get r k = dict_get d k.
Proof.
  intros Hd Hs. rewrite merge_dictionary_dict.
  destruct (merge_entries merge_dictionary s (JDict d) [] d)
    as [[res dk]| | |] eqn:Hloop; cbn [obind fst snd]; try discriminate.
  intros [= <-].
  pose proof Hloop as Hnd. apply merge_entries_dk_nodup in Hnd; [|exact Hd].
  apply merge_entries_untouched with (k := k) in Hloop;
    [|now apply dict_get_none_keys].
  destruct Hloop as [Hres Hdk].
  rewrite dict_update_get_full by assumption. rewrite Hdk, Hres.
  now destruct (dict_get d k).
Qed.

Lemma merge_entry_sets_key rec k v destination res0 dk0 res1 dk1 :
  merge_entries rec [(k, v)] destination res0 dk0 = Ok (res1, dk1) ->
  exists x, dict_get res1 k = Some x.
Proof.
  destruct v; cbn [merge_entries];
    repeat (merge_step; try discriminate);
    intros [= <- <-]; rewrite dict_get_set_same; eauto.
Qed.

(** X6: the keys of the merged dict are the keys of the source together
    with the keys of the destination. *)
Theorem merge_keys (s d r : dict) :
  NoDup (keys s) -> NoDup (keys d) ->
  merge_dictionary (JDict s) (JDict d) = Ok r ->
  forall k, dict_in k r = dict_in k s || dict_in k d.
Proof.
  intros Hs Hd Hm k. unfold dict_in at 2.
  destruct (dict_get s k) as [v|] eqn:Hget.
  - destruct (@merge_at_source_key s d r k _ Hs Hd Hget Hm)
      as (res0 & dk0 & res1 & dk1 & _ & Hstep & Hr).
    apply merge_entry_sets_key in Hstep. destruct Hstep as [x Hx].
    unfold dict_in at 1. rewrite Hr, Hx. now destruct (dict_get dk1 k).
  - unfold dict_in. now rewrite (@merge_at_other_key s d r k Hd Hget Hm).
Qed.

Lemma merge_keys_witness :
  dict_in "b" [("a", JNum 1); ("b", JDict [("c", JNum 3)])] =
  dict_in "b" [("a", JNum 1); ("b", JDict [("c", JNum 2)])] ||
  dict_in "b" [("b", JDict [("c", JNum 3)])].
Proof.
  apply (@merge_keys [("a", JNum 1); ("b", JDict [("c", JNum 2)])]
           [("b", JDict [("c", JNum 3)])]
           [("a", JNum 1); ("b", JDict [("c", JNum 3)])]).
  - repeat constructor; simpl; intuition discriminate.
  - repeat constructor. simpl. tauto.
  - reflexivity.
Defined.

Lemma dict_update_append (d r : dict) :
  NoDup (keys r ++ keys d) -> dict_update r d = r ++ d.
Proof.
  unfold dict_update. revert r.
  induction d as [|[k v] d IH]; intros r Hnd; simpl.
  - now rewrite app_nil_r.
  - assert (Hfresh : ~ In k (keys r)).
    { simpl in Hnd. apply NoDup_remove_2 in Hnd. intros Hin. apply Hnd.
      apply in_or_app. now left. }
    rewrite dict_set_fresh by assumption.
    rewrite IH.
    + now rewrite <- app_assoc.
    + unfold keys in *. rewrite map_app. simpl. rewrite <- app_assoc. exact Hnd.
Qed.

(** Merging into the empty destination: what the recursive calls must
    deliver. *)
Lemma merge_entries_empty_destination (items : dict) :
  Forall (fun kv => forall v, snd kv = JDict v ->
                              merge_dictionary (JDict v) (JDict []) = Ok v) items ->
  forall done,
    NoDup (keys done ++ keys items) ->
    merge_entries merge_dictionary items (JDict []) done [] = Ok (done ++ items, []).
Proof.
  induction items as [|[k v] items IH]; intros Hall done Hnd.
  - now rewrite app_nil_r.
  - inversion Hall as [|? ? Hkv Hrest]; subst.
    assert (Hfresh : ~ In k (keys done)).
    { simpl in Hnd. apply NoDup_remove_2 in Hnd. intros Hin. apply Hnd.
      apply in_or_app. now left. }
    assert (Hnd' : NoDup (keys (done ++ [(k, v)]) ++ keys items)).
    { unfold keys in *. rewrite map_app. simpl. rewrite <- app_assoc. exact Hnd. }
    assert (Hset : dict_set done k v = done ++ [(k, v)])
      by now apply dict_set_fresh.
    specialize (IH Hrest (done ++ [(k, v)]) Hnd').
    rewrite <- app_assoc in IH. cbn [app] in IH.
    destruct v; cbn [merge_entries py_get dict_get lift_exn obind py_len
                       List.length Nat.eqb dict_pop filter];
      rewrite ?Hset; try exact IH.
    + rewrite <- Hset, dict_set_set, Hset. exact IH.
    + cbn [snd] in Hkv. rewrite (Hkv d eq_refl). cbn [obind].
      rewrite Hset. exact IH.
Qed.

Lemma merge_empty_destination_node (n : node) :
  wf_node n -> forall v, n = JDict v -> merge_dictionary n (JDict []) = Ok v.
Proof.
  induction n as [| | | |l IH|d IH] using node_rect'; intros Hwf v E;
    try discriminate.
  injection E as <-.
  apply wf_node_dict in Hwf. destruct Hwf as [Hnd Hwf].
  rewrite merge_dictionary_dict.
  rewrite (@merge_entries_empty_destination d).
  - reflexivity.
  - rewrite Forall_forall in *. intros [k x] Hin v Hx. cbn [snd] in *. subst x.
    apply (IH _ Hin (Hwf _ Hin)). reflexivity.
  - exact Hnd.
Qed.

(** X7: the empty dict is neutral on both sides: merging a dict into the
    empty destination returns that dict, and merging the empty source into
    a destination returns the destination. *)
Theorem merge_empty_neutral (x : dict) :
  wf_dict x ->
  merge_dictionary (JDict x) (JDict []) = Ok x /\
  merge_dictionary (JDict []) (JDict x) = Ok x.
Proof.
  intros Hwf. split.
  - now apply (@merge_empty_destination_node (JDict x)).
  - apply wf_node_dict in Hwf. destruct Hwf as [Hnd _].
    rewrite merge_dictionary_dict. cbn [merge_entries obind fst snd].
    now rewrite dict_update_append.
Qed.

Lemma merge_empty_neutral_witness :
  merge_dictionary (JDict sample_om) (JDict []) = Ok sample_om /\
  merge_dictionary (JDict []) (JDict sample_om) = Ok sample_om.
Proof.
  apply merge_empty_neutral.
  unfold wf_dict, sample_om. simpl.
  repeat split; repeat constructor; simpl; intuition discriminate.
Defined.

Lemma merge_entries_container_over_atom rec k v post d w result dk :
  (forall items, rec (JDict items) w = Raise InterpreterError) ->
  is_leaf v = false ->
  dict_get d k = Some w ->
  not_iterable w = true ->
  merge_entries rec ((k, v) :: post) (JDict d) result dk = Raise InterpreterError.
Proof.
  intros Hrec Hv Hd Hw.
  destruct v; try discriminate; cbn [merge_entries py_get]; rewrite Hd;
    cbn [lift_exn obind].
  - destruct w; try discriminate; reflexivity.
  - now rewrite Hrec.
Qed.

Lemma merge_dictionary_atom_destination items w :
  not_iterable w = true ->
  merge_dictionary (JDict items) w = Raise InterpreterError.
Proof. destruct w; try discriminate; destruct items; reflexivity. Qed.

(** X8: where the source has a dict or a list and the destination has
    None, a bool or a number under the same key, the merge returns no
    result; it fails with the interpreter's TypeError (raised by [dict] or
    [len]) whenever the entries of the source before that key merge without
    an exception. *)
Theorem merge_container_over_atom (s d : dict) k v w :
  dict_get s k = Some v ->
  is_leaf v = false ->
  dict_get d k = Some w ->
  not_iterable w = true ->
  (forall r, merge_dictionary (JDict s) (JDict d) <> Ok r) /\
  (forall pre post r0,
      s = pre ++ (k, v) :: post ->
      merge_dictionary (JDict pre) (JDict d) = Ok r0 ->
      merge_dictionary (JDict s) (JDict d) = Raise InterpreterError).
Proof.
  intros Hs Hv Hd Hw.
  assert (Hstep : forall post result dk,
             merge_entries merge_dictionary ((k, v) :: post) (JDict d) result dk
             = Raise InterpreterError).
  { intros. apply merge_entries_container_over_atom with (w := w); auto.
    intros items. now apply merge_dictionary_atom_destination. }
  split.
  - destruct (dict_get_split _ _ Hs) as (pre & post & -> & _).
    intros r. rewrite merge_dictionary_dict, merge_entries_app.
    destruct (merge_entries merge_dictionary pre (JDict d) [] d) as [[res dk]| | |];
      cbn [obind fst snd]; try discriminate.
    now rewrite Hstep.
  - intros pre post r0 -> Hpre.
    rewrite merge_dictionary_dict in *. rewrite merge_entries_app.
    destruct (merge_entries merge_dictionary pre (JDict d) [] d) as [[res dk]| | |];
      cbn [obind fst snd] in *; try discriminate.
    now rewrite Hstep.
Qed.

Lemma merge_container_over_atom_witness :
  merge_dictionary
    (JDict [("n", JNum 1); ("state", JDict [("status", JStr "idle")])])
    (JDict [("state", JNull)])
  = Raise InterpreterError.
Proof.
  refine (proj2 (@merge_container_over_atom
                   [("n", JNum 1); ("state", JDict [("status", JStr "idle")])]
                   [("state", JNull)] "state" (JDict [("status", JStr "idle")])
                   JNull eq_refl eq_refl eq_refl eq_refl)
                [("n", JNum 1)] [] [("n", JNum 1); ("state", JNull)]
                eq_refl eq_refl).
Defined.

(** * Further properties of the recursive fetch *)

Lemma string_app_assoc (a b c : string) : ((a ++ b) ++ c = a ++ (b ++ c))%string.
Proof. induction a as [|ch a IH]; simpl; [reflexivity | now rewrite IH]. Qed.

Lemma extends_refl k : extends k k.
Proof.
  exists "". induction k as [|ch k IH]; simpl; [reflexivity | now rewrite <- IH].
Qed.

Lemma extends_trans a b c : extends a b -> extends b c -> extends a c.
Proof.
  intros [t ->] [u ->]. exists (t ++ u)%string. apply string_app_assoc.
Qed.

Lemma request_under_trans kw kw' e :
  extends (key kw) (key kw') ->
  frequently kw' = frequently kw ->
  include_null kw' = include_null kw ->
  verbose kw' = verbose kw ->
  request_under kw' e -> request_under kw e.
Proof.
  intros Hk Hf Hi Hv. destruct e as [kw2| |]; simpl; try tauto.
  intros (Hk2 & Hf2 & Hi2 & Hv2). repeat split; try congruence.
  eapply extends_trans; eassumption.
Qed.

Section FetchFacts.
Variable Api : Type.
Variable rr_model : kwargs -> Api -> Api * option response.

Notation fetch := (_fetch_objectmodel_recursive rr_model).
Notation fetch_children := (@fetch_children Api).

Lemma sub_kwargs_under kw k v d e :
  request_under (sub_kwargs kw k v d) e -> request_under kw e.
Proof.
  apply request_under_trans; try reflexivity.
  unfold sub_kwargs. cbn [key].
  destruct (String.eqb (key kw) "") eqn:E.
  - apply String.eqb_eq in E. rewrite E. now exists k.
  - now exists ("." ++ k)%string.
Qed.

Lemma with_array_under kw n e :
  request_under (with_array kw n) e -> request_under kw e.
Proof. apply request_under_trans; try reflexivity. apply extends_refl. Qed.

Lemma fetch_children_requests (rec : kwargs -> St (client Api) response) kw d :
  (forall kw' c c' out,
      rec kw' c = (c', out) ->
      exists evs, history c' = history c ++ evs /\ Forall (request_under kw') evs) ->
  forall items res c c' out,
    fetch_children rec kw d items res c = (c', out) ->
    exists evs, history c' = history c ++ evs /\ Forall (request_under kw) evs.
Proof.
  intros Hrec. induction items as [|[k v] items IH]; intros res c c' out; simpl.
  - intros [= <- <-]. exists []. now rewrite app_nil_r.
  - unfold bind. destruct (rec (sub_kwargs kw k v d) c) as [c1 o1] eqn:Hsub.
    apply Hrec in Hsub. destruct Hsub as (evs1 & Hh1 & Hall1).
    assert (Hall1' : Forall (request_under kw) evs1).
    { eapply Forall_impl; [|exact Hall1]. intros e. apply sub_kwargs_under. }
    destruct o1 as [sub| | |];
      try (intros [= <- <-]; exists evs1; split; assumption).
    intros H. apply IH in H. destruct H as (evs2 & Hh2 & Hall2).
    exists (evs1 ++ evs2). split.
    + now rewrite Hh2, Hh1, app_assoc.
    + apply Forall_app. split; assumption.
Qed.

(** X9: whatever its outcome, a recursive fetch only adds to the record
    of the client calls of [rr_model] whose key is the requested key
    followed by more characters (the requested key itself, or a key below
    it), with the flags [frequently], [include_null] and [verbose] it was
    given. *)
Theorem fetch_requests_under_key fuel kw (c c' : client Api) out :
  fetch fuel kw c = (c', out) ->
  exists evs,
    history c' = history c ++ evs /\
    Forall (request_under kw) evs.
Proof.
  revert kw c c' out. induction fuel as [|fuel IH]; intros kw c c' out.
  - intros [= <- <-]. exists []. now rewrite app_nil_r.
  - cbn [_fetch_objectmodel_recursive]. unfold bind at 1.
    assert (Hself : request_under kw (CallModel kw)).
    { simpl. repeat split. apply extends_refl. }
    unfold call_rr_model.
    destruct (rr_model kw (api c)) as [a [first|]];
      [|intros [= <- <-]; exists [CallModel kw]; split; [reflexivity|now constructor]].
    set (c1 := Client a (history c ++ [CallModel kw])).
    assert (Hext : forall c2 out2 evs,
               history c2 = history c1 ++ evs ->
               Forall (request_under kw) evs ->
               (c2, out2) = (c', out) ->
               exists evs, history c' = history c ++ evs /\
                           Forall (request_under kw) evs).
    { intros c2 out2 evs Hh Hall [= <- <-]. exists (CallModel kw :: evs). split.
      - rewrite Hh. unfold c1. cbn [history]. now rewrite <- app_assoc.
      - now constructor. }
    assert (Hplain : forall r c2 out2,
               match next first with
               | Some n =>
                   if (0 <? n)%Z
                   then
                     let! next_data := fetch fuel (with_array kw n) in
                     match py_extend r (result next_data) with
                     | Some l => ret (Response (JList l) (Some 0%Z))
                     | None => stop (Raise InterpreterError)
                     end
                   else ret first
               | None => ret first
               end c1 = (c2, out2) ->
               exists evs, history c2 = history c1 ++ evs /\
                           Forall (request_under kw) evs).
    { intros r c2 out2.
      assert (Hnone : ret first c1 = (c2, out2) ->
                      exists evs, history c2 = history c1 ++ evs /\
                                  Forall (request_under kw) evs).
      { intros [= <- <-]. exists []. now rewrite app_nil_r. }
      destruct (next first) as [n|]; [|exact Hnone].
      destruct (0 <? n)%Z; [|exact Hnone].
      unfold bind.
      destruct (fetch fuel (with_array kw n) c1) as [c3 o3] eqn:Hnext.
      apply IH in Hnext. destruct Hnext as (evs & Hh & Hall).
      assert (Hall' : Forall (request_under kw) evs).
      { eapply Forall_impl; [|exact Hall]. intros e. apply with_array_under. }
      destruct o3 as [page| | |];
        try (intros [= <- <-]; exists evs; split; assumption).
      destruct (py_extend r (result page)); unfold ret, stop;
        intros [= <- <-]; exists evs; split; assumption. }
    destruct (result first) as [| | | |l|items] eqn:Hres.
    6: { unfold bind.
         destruct (fetch_children (fetch fuel) kw _ items items c1) as [c2 o2] eqn:Hch.
         apply fetch_children_requests in Hch; [|exact IH].
         destruct Hch as (evs & Hh & Hall).
         destruct o2; unfold ret; intros H; eapply Hext; eauto. }
    all: intros H; pose proof H as H0; apply Hplain in H0;
      destruct H0 as (evs & Hh & Hall); eapply Hext; eauto.
Qed.
End FetchFacts.

Lemma fetch_requests_under_key_witness :
  let c := Client Bench.idle_board [] in
  let c' := fst (_fetch_objectmodel_recursive Bench.rr_model 5 (subtree_kwargs "job") c) in
  exists evs,
    history c' = history c ++ evs /\
    Forall (request_under (subtree_kwargs "job")) evs.
Proof.
  intros c c'.
  apply (@fetch_requests_under_key _ Bench.rr_model 5 (subtree_kwargs "job") c c'
           (snd (_fetch_objectmodel_recursive Bench.rr_model 5 (subtree_kwargs "job") c))).
  apply surjective_pairing.
Defined.

Section FetchShape.
Variable Api : Type.
Variable rr_model : kwargs -> Api -> Api * option response.

Notation fetch := (_fetch_objectmodel_recursive rr_model).
Notation fetch_children := (@fetch_children Api).


End FetchShape.


Section FetchPaging.
Variable Api : Type.
Variable rr_model : kwargs -> Api -> Api * option response.

Notation fetch := (_fetch_objectmodel_recursive rr_model).
Notation pages := (pages rr_model).

(** X11: when the board serves an array in pages, the fetch returns (it
    needs one level of recursion per page) the pages concatenated in the
    order served, after exactly one request per page; with more than one
    page the returned [next] is 0. *)
Theorem fetch_concatenates_pages kw a ps a' :
  pages kw a ps a' ->
  forall fuel h,
    List.length ps <= fuel ->
    exists nx h',
      fetch fuel kw (Client a h) =
      (Client a' h', Ok (Response (JList (List.concat ps)) nx)) /\
      (1 < List.length ps -> nx = Some 0%Z) /\
      List.length h' = List.length h + List.length ps.
Proof.
  induction 1 as [kw a a' l nx Hcall Hnx | kw a a1 a' l n rest Hcall Hn Hrest IH];
    intros fuel h Hfuel.
  - destruct fuel as [|fuel]; [simpl in Hfuel; lia|].
    exists nx, (h ++ [CallModel kw]).
    cbn [_fetch_objectmodel_recursive]. unfold bind, call_rr_model.
    cbn [api history]. rewrite Hcall. cbn [result next List.concat].
    rewrite app_nil_r. split; [|split].
    + destruct nx as [n|]; [|reflexivity].
      assert (E : (0 <? n)%Z = false) by (apply Z.ltb_ge; exact Hnx).
      now rewrite E.
    + simpl. lia.
    + rewrite length_app. reflexivity.
  - destruct fuel as [|fuel]; [simpl in Hfuel; lia|].
    simpl in Hfuel.
    destruct (IH fuel (h ++ [CallModel kw])) as (nx' & h' & Hf & _ & Hlen); [lia|].
    exists (Some 0%Z), h'.
    cbn [_fetch_objectmodel_recursive]. unfold bind, call_rr_model.
    cbn [api history]. rewrite Hcall. cbn [result next].
    assert (E : (0 <? n)%Z = true) by now apply Z.ltb_lt.
    rewrite E, Hf. cbn [result py_extend List.concat]. split; [reflexivity|].
    split; [reflexivity|].
    rewrite Hlen, length_app. simpl. lia.
Qed.
End FetchPaging.

(** A board that serves the array "tools" in three pages. *)
Lemma fetch_concatenates_pages_witness :
  let rr kw (b : unit) :=
    (b, match array kw with
        | None => Some (Response (JList [JNum 1; JNum 2]) (Some 2%Z))
        | Some 2%Z => Some (Response (JList [JNum 3; JNum 4]) (Some 4%Z))
        | Some _ => Some (Response (JList [JNum 5]) (Some 0%Z))
        end) in
  exists nx h',
    _fetch_objectmodel_recursive rr 3 (subtree_kwargs "tools") (Client tt []) =
    (Client tt h',
     Ok (Response (JList [JNum 1; JNum 2; JNum 3; JNum 4; JNum 5]) nx)) /\
    (1 < 3 -> nx = Some 0%Z) /\
    List.length h' = 0 + 3.
Proof.
  intros rr.
  apply (@fetch_concatenates_pages unit rr (subtree_kwargs "tools") tt
           [[JNum 1; JNum 2]; [JNum 3; JNum 4]; [JNum 5]] tt).
  - eapply pages_more; [reflexivity | lia |].
    eapply pages_more; [reflexivity | lia |].
    eapply pages_last; [reflexivity | simpl; lia].
  - simpl. lia.
Defined.

(** * Further properties of tick *)

Lemma py_eq_refl (n : node) : wf_node n -> py_eq n n = true.
Proof.
  induction n as [| | | |l IH|d IH] using node_rect'; intros Hwf; cbn [py_eq].
  - reflexivity.
  - apply Bool.eqb_reflx.
  - apply Z.eqb_refl.
  - apply String.eqb_refl.
  - apply wf_node_list in Hwf.
    induction l as [|x l IHl]; [reflexivity|].
    inversion IH; inversion Hwf; subst.
    rewrite H1 by assumption. simpl. now apply IHl.
  - apply wf_node_dict in Hwf. destruct Hwf as [Hnd Hwf].
    rewrite Nat.eqb_refl. cbn [andb].
    match goal with
    | |- ?f d = true => assert (Hsub : forall sub, incl sub d -> f sub = true)
    end.
    { induction sub as [|[k v] sub IHsub]; intros Hincl; [reflexivity|].
      assert (Hin : In (k, v) d) by (apply Hincl; now left).
      rewrite (in_dict_get _ _ _ Hnd Hin).
      rewrite Forall_forall in IH, Hwf.
      pose proof (IH _ Hin (Hwf _ Hin)) as Hv. cbn [snd] in Hv.
      rewrite Hv. cbn [andb].
      apply IHsub. intros x Hx. apply Hincl. now right. }
    apply Hsub. apply incl_refl.
Qed.

Lemma seqs_changes_same (d : dict) : wf_dict d -> seqs_changes d d = [].
Proof.
  intros Hwf. pose proof Hwf as Hwf'.
  apply wf_node_dict in Hwf'. destruct Hwf' as [Hnd Hall].
  destruct (seqs_changes d d) as [|[k v] rest] eqn:E; [reflexivity|].
  assert (Hget : dict_get (seqs_changes d d) k = Some v).
  { rewrite E. simpl. now rewrite String.eqb_refl. }
  apply seqs_changes_spec in Hget; [|exact Hnd].
  destruct Hget as (old & Hold & Hnew & Hne).
  assert (old = v) by congruence. subst old.
  rewrite Forall_forall in Hall.
  rewrite py_eq_refl in Hne; [discriminate|].
  apply (Hall (k, v)). now apply dict_get_in.
Qed.

Section TickFacts.
Variable Api : Type.
Variable rr_model : kwargs -> Api -> Api * option response.
Variable rr_reply : option bool -> Api -> Api * option string.

Notation printer := (DuetPrinter Api).
Notation tick := (tick rr_model rr_reply).
Notation _handle_om_changes := (_handle_om_changes rr_model rr_reply).
Notation fetch_changed := (fetch_changed rr_model).
Notation fetch_reply := (fetch_reply rr_reply).
Notation fetch_subtrees := (fetch_subtrees rr_model).
Notation http_503_callback := (http_503_callback rr_reply).
Notation drain := (drain rr_reply).
Notation delivers := (delivers rr_reply).

(** X12: when the poll returns the counters that are stored, the tick is
    the poll and nothing else: one call on the client, no subtree fetched,
    baseline, counters and reply as they were. *)
Theorem tick_same_counters_noop fuel (p : printer) o polled a resp :
  om p = Some o ->
  seqs p = Some polled ->
  rr_model seqs_kwargs (api (io p)) = (a, Some resp) ->
  result resp = JDict polled ->
  wf_dict polled ->
  tick fuel p =
  (Printer (Client a (history (io p) ++ [CallModel seqs_kwargs]))
           (Some o) (Some polled) (_reply p) (_wait_for_reply p),
   Ok tt).
Proof.
  intros Hom Hseqs Hpoll Hres Hwf.
  unfold tick, bind, on_api, call_rr_model.
  rewrite Hom, Hpoll, Hseqs, Hres. unfold modify, ret.
  rewrite seqs_changes_same by assumption.
  unfold set_seqs, set_io. cbn. now rewrite Hom.
Qed.

End TickFacts.

Lemma tick_same_counters_noop_witness :
  Bench.tick 5 (Bench.tracking Bench.idle_board None) =
  (Printer (Client Bench.idle_board [CallModel seqs_kwargs])
           (Some [("job", JDict [("layer", JNum 0)])])
           (Some [("reply", JNum 5); ("job", JNum 2)]) None false,
   Ok tt).
Proof.
  apply (@tick_same_counters_noop _ Bench.rr_model Bench.rr_reply 5
           (Bench.tracking Bench.idle_board None)
           [("job", JDict [("layer", JNum 0)])]
           [("reply", JNum 5); ("job", JNum 2)] Bench.idle_board
           (Bench.plain (JDict [("reply", JNum 5); ("job", JNum 2)])));
    try reflexivity.
  unfold wf_dict. simpl. repeat split; repeat constructor; simpl; intuition discriminate.
Defined.

(** * The keys requested for a changed set *)

Lemma string_app_nonempty (a b : string) : a <> "" -> (a ++ b)%string <> "".
Proof. destruct a; [congruence | discriminate]. Qed.

Lemma has_dot_app (a b : string) :
  has_dot (a ++ b) = has_dot a || has_dot b.
Proof.
  induction a as [|c a IH]; simpl; [reflexivity|].
  rewrite IH. now rewrite orb_assoc.
Qed.

Lemma below_refl k : below k k.
Proof. now left. Qed.

Lemma below_trans a b c : below a b -> below b c -> below a c.
Proof.
  intros [->|[t ->]] [->|[u ->]].
  - now left.
  - right. now exists u.
  - right. now exists t.
  - right. exists (t ++ "." ++ u)%string.
    now rewrite !string_app_assoc.
Qed.

(** A key without a dot is below no other key than itself. *)
Lemma below_without_dot k k' :
  below k k' -> has_dot k' = false -> k' = k.
Proof.
  intros [->|[t ->]] Hdot; [reflexivity|].
  rewrite !has_dot_app in Hdot. simpl in Hdot.
  rewrite orb_true_r in Hdot. discriminate.
Qed.

Section FetchInvariant.
Variable Api : Type.
Variable rr_model : kwargs -> Api -> Api * option response.

Notation fetch := (_fetch_objectmodel_recursive rr_model).
Notation fetch_children := (@fetch_children Api).

(** A property of the recorded calls that holds of the request itself
    and passes from the requests of the recursive calls to the caller. *)
Variable R : kwargs -> event -> Prop.
Hypothesis R_self : forall kw, R kw (CallModel kw).
Hypothesis R_sub : forall kw k v d e, R (sub_kwargs kw k v d) e -> R kw e.
Hypothesis R_array : forall kw n e, R (with_array kw n) e -> R kw e.

Lemma fetch_children_invariant (rec : kwargs -> St (client Api) response) kw d :
  (forall kw' c c' out,
      rec kw' c = (c', out) ->
      exists evs, history c' = history c ++ evs /\ Forall (R kw') evs) ->
  forall items res c c' out,
    fetch_children rec kw d items res c = (c', out) ->
    exists evs, history c' = history c ++ evs /\ Forall (R kw) evs.
Proof.
  intros Hrec. induction items as [|[k v] items IH]; intros res c c' out; simpl.
  - intros [= <- <-]. exists []. now rewrite app_nil_r.
  - unfold bind. destruct (rec (sub_kwargs kw k v d) c) as [c1 o1] eqn:Hsub.
    apply Hrec in Hsub. destruct Hsub as (evs1 & Hh1 & Hall1).
    assert (Hall1' : Forall (R kw) evs1).
    { eapply Forall_impl; [|exact Hall1]. intros e. apply R_sub. }
    destruct o1 as [sub| | |];
      try (intros [= <- <-]; exists evs1; split; assumption).
    intros H. apply IH in H. destruct H as (evs2 & Hh2 & Hall2).
    exists (evs1 ++ evs2). split.
    + now rewrite Hh2, Hh1, app_assoc.
    + apply Forall_app. split; assumption.
Qed.

Lemma fetch_invariant fuel kw (c c' : client Api) out :
  fetch fuel kw c = (c', out) ->
  exists evs, history c' = history c ++ evs /\ Forall (R kw) evs.
Proof.
  revert kw c c' out. induction fuel as [|fuel IH]; intros kw c c' out.
  - intros [= <- <-]. exists []. now rewrite app_nil_r.
  - cbn [_fetch_objectmodel_recursive]. unfold bind at 1.
    unfold call_rr_model.
    destruct (rr_model kw (api c)) as [a [first|]];
      [|intros [= <- <-]; exists [CallModel kw]; split;
        [reflexivity | constructor; [apply R_self | constructor]]].
    set (c1 := Client a (history c ++ [CallModel kw])).
    assert (Hext : forall c2 out2 evs,
               history c2 = history c1 ++ evs ->
               Forall (R kw) evs ->
               (c2, out2) = (c', out) ->
               exists evs, history c' = history c ++ evs /\ Forall (R kw) evs).
    { intros c2 out2 evs Hh Hall [= <- <-]. exists (CallModel kw :: evs). split.
      - rewrite Hh. unfold c1. cbn [history]. now rewrite <- app_assoc.
      - constructor; [apply R_self | exact Hall]. }
    assert (Hplain : forall r c2 out2,
               match next first with
               | Some n =>
                   if (0 <? n)%Z
                   then
                     let! next_data := fetch fuel (with_array kw n) in
                     match py_extend r (result next_data) with
                     | Some l => ret (Response (JList l) (Some 0%Z))
                     | None => stop (Raise InterpreterError)
                     end
                   else ret first
               | None => ret first
               end c1 = (c2, out2) ->
               exists evs, history c2 = history c1 ++ evs /\ Forall (R kw) evs).
    { intros r c2 out2.
      assert (Hnone : ret first c1 = (c2, out2) ->
                      exists evs, history c2 = history c1 ++ evs /\
                                  Forall (R kw) evs).
      { intros [= <- <-]. exists []. now rewrite app_nil_r. }
      destruct (next first) as [n|]; [|exact Hnone].
      destruct (0 <? n)%Z; [|exact Hnone].
      unfold bind.
      destruct (fetch fuel (with_array kw n) c1) as [c3 o3] eqn:Hnext.
      apply IH in Hnext. destruct Hnext as (evs & Hh & Hall).
      assert (Hall' : Forall (R kw) evs).
      { eapply Forall_impl; [|exact Hall]. intros e. apply R_array. }
      destruct o3 as [page| | |];
        try (intros [= <- <-]; exists evs; split; assumption).
      destruct (py_extend r (result page)); unfold ret, stop;
        intros [= <- <-]; exists evs; split; assumption. }
    destruct (result first) as [| | | |l|items] eqn:Hres.
    6: { unfold bind.
         destruct (fetch_children (fetch fuel) kw _ items items c1) as [c2 o2] eqn:Hch.
         apply fetch_children_invariant in Hch; [|exact IH].
         destruct Hch as (evs & Hh & Hall).
         destruct o2; unfold ret; intros H; eapply Hext; eauto. }
    all: intros H; pose proof H as H0; apply Hplain in H0;
      destruct H0 as (evs & Hh & Hall); eapply Hext; eauto.
Qed.
End FetchInvariant.

Section FetchKeys.
Variable Api : Type.
Variable rr_model : kwargs -> Api -> Api * option response.

Notation fetch := (_fetch_objectmodel_recursive rr_model).

(** Every call of a fetch for a key other than the root key "" is a
    call of [rr_model] for that key or for a key of its subtree. *)
Lemma fetch_keys_below fuel kw (c c' : client Api) out :
  key kw <> "" ->
  fetch fuel kw c = (c', out) ->
  exists evs,
    history c' = history c ++ evs /\
    Forall (fun e => exists kw', e = CallModel kw' /\ below (key kw) (key kw')) evs.
Proof.
  intros Hkey H.
  apply fetch_invariant
    with (R := fun kw e => key kw <> "" ->
                           exists kw', e = CallModel kw' /\ below (key kw) (key kw'))
    in H.
  - destruct H as (evs & Hh & Hall). exists evs. split; [exact Hh|].
    eapply Forall_impl; [|exact Hall]. intros e He. now apply He.
  - intros kw0 _. exists kw0. split; [reflexivity | apply below_refl].
  - intros kw0 k v d e He Hk0.
    assert (Hsub : key (sub_kwargs kw0 k v d) = (key kw0 ++ "." ++ k)%string).
    { unfold sub_kwargs. cbn [key].
      destruct (String.eqb (key kw0) "") eqn:E; [|reflexivity].
      apply String.eqb_eq in E. congruence. }
    destruct He as (kw' & -> & Hb).
    { rewrite Hsub. now apply string_app_nonempty. }
    exists kw'. split; [reflexivity|].
    eapply below_trans; [|exact Hb]. rewrite Hsub. right. now exists k.
  - intros kw0 n e He Hk0. now apply He.
Qed.
End FetchKeys.

Section HandleFacts.
Variable Api : Type.
Variable rr_model : kwargs -> Api -> Api * option response.
Variable rr_reply : option bool -> Api -> Api * option string.

Notation printer := (DuetPrinter Api).
Notation tick := (tick rr_model rr_reply).
Notation _handle_om_changes := (_handle_om_changes rr_model rr_reply).
Notation fetch_changed := (fetch_changed rr_model).
Notation fetch_reply := (fetch_reply rr_reply).
Notation fetch_subtrees := (fetch_subtrees rr_model).
Notation fetch := (_fetch_objectmodel_recursive rr_model).



Lemma fetch_changed_history fuel ks (p p' : printer) out :
  fetch_changed fuel ks p = (p', out) ->
  exists evs,
    history (io p') = history (io p) ++ evs /\
    Forall (fun e => exists kw, e = CallModel kw) evs.
Proof.
  revert p. induction ks as [|k ks IH]; intros p; simpl.
  - intros [= <- <-]. exists []. now rewrite app_nil_r.
  - destruct (String.eqb k "reply"); [apply IH|].
    unfold bind, on_api, om_setitem.
    destruct (fetch fuel (subtree_kwargs k) (io p)) as [c o] eqn:Hf.
    apply fetch_invariant with (R := fun _ e => exists kw, e = CallModel kw) in Hf;
      eauto.
    destruct Hf as (evs1 & Hh1 & Hall1').
    destruct o as [res| | |];
      try (intros [= <- <-]; exists evs1; split; assumption).
    cbn [om set_io]. destruct (om p);
      [|intros [= <- <-]; exists evs1; split; assumption].
    intros H. apply IH in H. destruct H as (evs2 & Hh2 & Hall2).
    cbn [io set_om set_io] in Hh2.
    exists (evs1 ++ evs2). split.
    + now rewrite Hh2, Hh1, app_assoc.
    + apply Forall_app. split; assumption.
Qed.

(** X14: a successful [_handle_om_changes] reads a reply exactly when the
    changed set has the key "reply".  With it, the first call is [rr_reply()],
    the text it returns becomes the stored reply, the waiters are woken on
    that text and the event is cleared again; every later call is a call of
    [rr_model].  Without it, only [rr_model] is called, and the stored
    reply and the event are as they were. *)
Theorem handle_reply_path fuel changes aliased (p p' : printer) :
  _handle_om_changes fuel changes aliased p = (p', Ok tt) ->
  (dict_in "reply" changes = true ->
   exists a r evs,
     rr_reply None (api (io p)) = (a, Some r) /\
     _reply p' = Some r /\
     _wait_for_reply p' = false /\
     history (io p') =
       history (io p) ++ CallReply None :: Woken (Some r) :: evs /\
     Forall (fun e => exists kw, e = CallModel kw) evs) /\
  (dict_in "reply" changes = false ->
   exists evs,
     _reply p' = _reply p /\
     _wait_for_reply p' = _wait_for_reply p /\
     history (io p') = history (io p) ++ evs /\
     Forall (fun e => exists kw, e = CallModel kw) evs).
Proof.
  unfold _handle_om_changes, bind. intros H.
  destruct (fetch_reply changes p) as [q o] eqn:Hr.
  destruct o as [[]| | |]; try discriminate.
  assert (Hrest : exists evs,
             _reply p' = _reply q /\
             _wait_for_reply p' = _wait_for_reply q /\
             history (io p') = history (io q) ++ evs /\
             Forall (fun e => exists kw, e = CallModel kw) evs).
  { destruct (dict_in "volChanges" changes);
      [destruct aliased; unfold modify, ret in H; cbn beta iota in H|];
      pose proof H as Hh; apply fetch_changed_history in Hh;
      destruct Hh as (evs & Hh & Hall);
      apply fetch_changed_frame in H; destruct H as (_ & Hrep & Hfl);
      exists evs; repeat split; auto. }
  destruct Hrest as (evs & Hrep & Hfl & Hh & Hall).
  unfold fetch_reply in Hr. split; intros Hin; rewrite Hin in Hr.
  - unfold bind, on_api, call_rr_reply, wake, bind, modify in Hr.
    destruct (rr_reply None (api (io p))) as [a [r|]] eqn:Hcall; [|discriminate].
    injection Hr as <-. exists a, r, evs.
    cbn in Hrep, Hfl, Hh. repeat split; auto.
    rewrite Hh. repeat rewrite <- app_assoc. reflexivity.
  - injection Hr as <-. exists evs. repeat split; auto.
Qed.

Lemma fetch_changed_om_skipped fuel ks (p p' : printer) o out k0 :
  om p = Some o ->
  ~ In k0 ks \/ k0 = "reply" ->
  fetch_changed fuel ks p = (p', out) ->
  exists o', om p' = Some o' /\ dict_get o' k0 = dict_get o k0.
Proof.
  revert p o. induction ks as [|k ks IH]; intros p o Hom Hn; simpl.
  - intros [= <- <-]. eauto.
  - destruct (String.eqb k "reply") eqn:E.
    + apply IH; auto. destruct Hn as [Hn|Hn]; [left; simpl in Hn; tauto | now right].
    + apply String.eqb_neq in E.
      assert (Hne : k <> k0).
      { destruct Hn as [Hn|Hn]; [simpl in Hn; tauto | congruence]. }
      unfold bind, on_api, om_setitem.
      destruct (fetch fuel (subtree_kwargs k) (io p))
        as [c [res| | |]]; try (intros [= <- <-]; eauto).
      cbn [om set_io]. rewrite Hom. intros H.
      apply IH with (o := dict_set o k (result res)) in H; [|reflexivity|].
      * destruct H as (o' & Ho' & Hget). exists o'. split; [exact Ho'|].
        rewrite Hget. now apply dict_get_set_other.
      * destruct Hn as [Hn|Hn]; [left; simpl in Hn; tauto | now right].
Qed.

(** X15: whatever its outcome, [_handle_om_changes] leaves the baseline a
    dict and assigns in it only at changed keys: an entry whose key is not
    in the changed set, or is "reply" or "volChanges", is what it was. *)
Theorem handle_assigns_changed_keys_only fuel changes aliased (p p' : printer) o out k :
  om p = Some o ->
  ~ In k (keys changes) \/ k = "reply" \/ k = "volChanges" ->
  _handle_om_changes fuel changes aliased p = (p', out) ->
  exists o', om p' = Some o' /\ dict_get o' k = dict_get o k.
Proof.
  intros Hom Hk. unfold _handle_om_changes, bind.
  destruct (fetch_reply changes p) as [q o0] eqn:Hr.
  assert (Hq : om q = Some o).
  { apply fetch_reply_frame in Hr. destruct Hr as [_ ->]. exact Hom. }
  destruct o0 as [[]| | |]; try (intros [= <- <-]; eauto).
  assert (Hskip : ~ In k (keys (dict_pop changes "volChanges")) \/ k = "reply").
  { destruct Hk as [Hk|[Hk|Hk]]; auto; left.
    - rewrite keys_dict_pop. intros Hin. apply filter_In in Hin. tauto.
    - subst k. apply dict_get_none_keys. apply dict_get_pop_same. }
  destruct (dict_in "volChanges" changes) eqn:Hv.
  - destruct aliased; unfold modify, ret; cbn beta iota; intros H;
      eapply fetch_changed_om_skipped in H; eauto.
  - rewrite (dict_pop_absent _ _ Hv) in Hskip.
    intros H. eapply fetch_changed_om_skipped in H; eauto.
Qed.

End HandleFacts.


Lemma handle_reply_path_witness :
  let p := Bench.tracking (Bench.Board (Bench.answers Bench.idle_board) ["done"]) None in
  let changes := [("reply", JNum 6); ("job", JNum 3)] in
  let p' := fst (handle_on_bench 5 changes false p) in
  (dict_in "reply" changes = true ->
   exists a r evs,
     Bench.rr_reply None (api (io p)) = (a, Some r) /\
     _reply p' = Some r /\
     _wait_for_reply p' = false /\
     history (io p') =
       history (io p) ++ CallReply None :: Woken (Some r) :: evs /\
     Forall (fun e => exists kw, e = CallModel kw) evs) /\
  (dict_in "reply" changes = false ->
   exists evs,
     _reply p' = _reply p /\
     _wait_for_reply p' = _wait_for_reply p /\
     history (io p') = history (io p) ++ evs /\
     Forall (fun e => exists kw, e = CallModel kw) evs).
Proof.
  intros p changes p'.
  apply (@handle_reply_path _ Bench.rr_model Bench.rr_reply 5 changes false p p').
  vm_compute. reflexivity.
Defined.

Lemma handle_assigns_changed_keys_only_witness :
  let p := Bench.tracking Bench.failing_board None in
  let p' := fst (handle_on_bench 5 [("job", JNum 3)] false p) in
  exists o', om p' = Some o' /\
             dict_get o' "state" = dict_get [("job", JDict [("layer", JNum 0)])] "state".
Proof.
  intros p p'.
  apply (@handle_assigns_changed_keys_only _ Bench.rr_model Bench.rr_reply 5
           [("job", JNum 3)] false p p' [("job", JDict [("layer", JNum 0)])]
           (snd (handle_on_bench 5 [("job", JNum 3)] false p)) "state").
  - reflexivity.
  - left. simpl. intuition discriminate.
  - apply surjective_pairing.
Defined.

Section FailureFacts.
Variable Api : Type.
Variable rr_model : kwargs -> Api -> Api * option response.
Variable rr_reply : option bool -> Api -> Api * option string.

Notation printer := (DuetPrinter Api).
Notation tick := (tick rr_model rr_reply).
Notation http_503_callback := (http_503_callback rr_reply).
Notation drain := (drain rr_reply).
Notation delivers := (delivers rr_reply).

(** X16: on a printer with a baseline, a poll of "seqs" that raises makes
    the tick raise the transport error, and a poll that answers with
    something that is no mapping while counters are stored makes it raise
    at [.items()]; in both cases the poll is the only call made and
    baseline, counters and reply are what they were. *)
Theorem tick_poll_failure fuel (p : printer) o a :
  om p = Some o ->
  let q := set_io (Client a (history (io p) ++ [CallModel seqs_kwargs])) p in
  (rr_model seqs_kwargs (api (io p)) = (a, None) ->
   tick fuel p = (q, Raise TransportError)) /\
  (forall stored resp,
      seqs p = Some stored ->
      rr_model seqs_kwargs (api (io p)) = (a, Some resp) ->
      is_dict (result resp) = false ->
      tick fuel p = (q, Raise InterpreterError)).
Proof.
  intros Hom q. split.
  - intros Hpoll. unfold tick, bind, on_api, call_rr_model.
    now rewrite Hom, Hpoll.
  - intros stored resp Hseqs Hpoll Hres.
    unfold tick, bind, on_api, call_rr_model. rewrite Hom, Hpoll, Hseqs.
    destruct (result resp); try discriminate; reflexivity.
Qed.

Lemma drain_failure n (p p' : printer) e :
  drain n p = (p', Raise e) ->
  e = TransportError /\
  exists rs a,
    delivers (api (io p)) rs a /\
    fst (rr_reply (Some true) a) = api (io p') /\
    snd (rr_reply (Some true) a) = None /\
    Forall (fun r => r <> "") rs /\
    List.length rs < n /\
    history (io p') = history (io p) ++ reads rs ++ [CallReply (Some true)] /\
    _reply p' = retained (_reply p) rs /\
    om p' = om p /\ seqs p' = seqs p /\
    _wait_for_reply p' = _wait_for_reply p.
Proof.
  revert p. induction n as [|n IH]; intros p; simpl; [discriminate|].
  unfold bind, on_api, call_rr_reply, modify.
  destruct (rr_reply (Some true) (api (io p))) as [a [r|]] eqn:Hr.
  - destruct (String.eqb r "") eqn:E; [discriminate|].
    intros H. apply IH in H.
    destruct H as (He & rs & a' & Hd & Hfst & Hsnd & Hne & Hlen & Hh & Hrep & Hom & Hs & Hf).
    split; [exact He|]. exists (r :: rs), a'.
    cbn [io set_io set_reply api history _reply om seqs _wait_for_reply] in *.
    repeat split; auto.
    + econstructor; eassumption.
    + constructor; auto. now apply String.eqb_neq.
    + simpl. lia.
    + rewrite Hh. cbn [reads map app]. now rewrite <- app_assoc.
    + rewrite Hrep. unfold retained. simpl. now rewrite E.
  - intros [= <- <-]. split; [reflexivity|]. exists [], (api (io p)).
    rewrite Hr. cbn. repeat split; auto; try lia; constructor.
Qed.

Lemma drain_raises n :
  forall rs (p : printer) a a',
    delivers (api (io p)) rs a ->
    rr_reply (Some true) a = (a', None) ->
    Forall (fun r => r <> "") rs ->
    List.length rs < n ->
    drain n p =
    (Printer (Client a' (history (io p) ++ reads rs ++ [CallReply (Some true)]))
             (om p) (seqs p) (retained (_reply p) rs) (_wait_for_reply p),
     Raise TransportError).
Proof.
  induction n as [|n IH]; intros rs p a a' Hd Hfail Hne Hlen; [lia|].
  cbn [drain]. unfold bind, on_api, call_rr_reply, modify.
  inversion Hd as [a0|a0 a1 r rs' a2 Hr Hd']; subst.
  - rewrite Hfail. destruct p; reflexivity.
  - rewrite Hr. inversion Hne as [|? ? Hr0 Hne']; subst.
    apply String.eqb_neq in Hr0. rewrite Hr0.
    rewrite (IH rs' _ a a'); auto; [|simpl in Hlen; lia].
    cbn [io set_io set_reply api history _reply om seqs _wait_for_reply].
    unfold retained. cbn [fold_left reads map app]. rewrite Hr0.
    now rewrite <- app_assoc.
Qed.

(** X17: the callback raises exactly when a read of the drain raises:
    the board has delivered fewer than ten values, none of them empty, and
    the next read fails.  The exception is the transport error; nobody is
    woken: the record of the client gains these reads and the failing one,
    and no wake-up, and the event is as it was; the stored reply is the
    last of the values delivered, or the previous reply when the first
    read failed; baseline and counters are as they were. *)
Theorem drain_failure_wakes_nobody (p p' : printer) e :
  http_503_callback p = (p', Raise e) <->
  exists rs a a',
    delivers (api (io p)) rs a /\
    rr_reply (Some true) a = (a', None) /\
    Forall (fun r => r <> "") rs /\
    List.length rs < 10 /\
    e = TransportError /\
    p' = Printer
           (Client a' (history (io p) ++ reads rs ++ [CallReply (Some true)]))
           (om p) (seqs p) (retained (_reply p) rs) (_wait_for_reply p).
Proof.
  unfold http_503_callback, bind. split.
  - destruct (drain 10 p) as [q o] eqn:Hd.
    destruct o as [[]| | |]; try (unfold wake, bind, modify; discriminate).
    intros [= <- <-]. apply drain_failure in Hd.
    destruct Hd as (He & rs & a & Hdel & Hfst & Hsnd & Hne & Hlen & Hh & Hrep
                    & Hom & Hs & Hf).
    exists rs, a, (api (io q)). repeat split; auto.
    + rewrite <- Hfst, <- Hsnd. apply surjective_pairing.
    + destruct q as [[qa qh] qo qs qr qf]. cbn in *. congruence.
  - intros (rs & a & a' & Hdel & Hfail & Hne & Hlen & -> & ->).
    now rewrite (@drain_raises 10 rs p a a' Hdel Hfail Hne Hlen).
Qed.

End FailureFacts.

Lemma tick_poll_failure_witness :
  let p := Bench.tracking (Bench.Board [] []) None in
  let q := set_io (Client (Bench.Board [] []) [CallModel seqs_kwargs]) p in
  (Bench.rr_model seqs_kwargs (api (io p)) = (Bench.Board [] [], None) ->
   Bench.tick 5 p = (q, Raise TransportError)) /\
  (forall stored resp,
      seqs p = Some stored ->
      Bench.rr_model seqs_kwargs (api (io p)) = (Bench.Board [] [], Some resp) ->
      is_dict (result resp) = false ->
      Bench.tick 5 p = (q, Raise InterpreterError)).
Proof.
  intros p.
  apply (@tick_poll_failure _ Bench.rr_model Bench.rr_reply 5 p
           [("job", JDict [("layer", JNum 0)])] (Bench.Board [] [])).
  reflexivity.
Defined.

Lemma drain_failure_wakes_nobody_witness :
  let rr (_ : option bool) (n : nat) : nat * option string :=
    match n with O => (1, Some "busy") | _ => (n, None) end in
  let p := Printer (Client 0 []) None None (Some "ok") false in
  http_503_callback rr p =
  (Printer (Client 1 [CallReply (Some true); CallReply (Some true)])
           None None (Some "busy") false,
   Raise TransportError).
Proof.
  intros rr p.
  apply (proj2 (@drain_failure_wakes_nobody nat rr p
                  (Printer (Client 1 [CallReply (Some true); CallReply (Some true)])
                           None None (Some "busy") false)
                  TransportError)).
  exists ["busy"], 1, 1. repeat split.
  - eapply delivers_cons; [reflexivity | apply delivers_nil].
  - repeat constructor. discriminate.
  - simpl. lia.
Defined.

(** * Properties of connect_to_duet *)

Section ConnectFacts.
Variable Dev : Type.
Variable make : string -> string -> Dev.
Variable connect : Dev -> Dev * option Discover.pyexc.
Variable rr_model : kwargs -> Dev -> Dev * (Discover.pyexc + response).
Variable close : Dev -> Dev * option Discover.pyexc.
Variable format : node -> string.

Import Discover.

Notation connect_to_duet := (Discover.connect_to_duet make connect rr_model close format).

(** X18: the connection is closed exactly once, as the last call, on
    every path of [connect_to_duet] but one: when [connect] raises an
    exception that its handler does not list, the exception leaves the
    function and [close] is never called. *)
Theorem connection_closed_once ip_address password :
  let '(_, log, res) := connect_to_duet ip_address password in
  match snd (connect (make ip_address password)) with
  | Some e =>
      if caught_on_connect e
      then closes log = 1 /\ last log Connect = Close
      else closes log = 0 /\ res = Raised (FromClient e)
  | None => closes log = 1 /\ last log Connect = Close
  end.
Proof.
  unfold Discover.connect_to_duet, closing.
  destruct (connect (make ip_address password)) as [d1 [e|]]; cbn [snd].
  - destruct (caught_on_connect e); [|split; reflexivity].
    destruct (close d1) as [d' [e'|]]; split; reflexivity.
  - destruct (rr_model board_kwargs d1) as [d2 [e|resp]].
    + destruct (close d2) as [d' [e'|]]; split; reflexivity.
    + destruct (close d2) as [d3 [e'|]]; [split; reflexivity|].
      destruct (unique_id (result resp)); split; reflexivity.
Qed.

(** X19: [connect_to_duet] returns None in two cases and no other:
    [connect] raised an exception of its handler's list, or [connect]
    returned and [rr_model] raised an exception of the second handler's
    list; in both, the [close] that follows must return. *)
Theorem returns_none_iff ip_address password :
  let duet := make ip_address password in
  let d1 := fst (connect duet) in
  let d2 := fst (rr_model board_kwargs d1) in
  snd (connect_to_duet ip_address password) = Returned None <->
  (exists e, snd (connect duet) = Some e /\ caught_on_connect e = true /\
             snd (close d1) = None) \/
  (snd (connect duet) = None /\
   exists e, snd (rr_model board_kwargs d1) = inl e /\ caught_on_model e = true /\
             snd (close d2) = None).
Proof.
  unfold Discover.connect_to_duet, closing. cbv zeta.
  destruct (connect (make ip_address password)) as [d1 [e|]]; cbn [fst snd].
  - destruct (caught_on_connect e) eqn:Hc.
    + destruct (close d1) as [d' [e'|]]; cbn [fst snd]; split.
      * discriminate.
      * intros [(e0 & _ & _ & [=])|([=] & _)].
      * intros _. left. eauto.
      * reflexivity.
    + cbn [snd]. split; [discriminate|].
      intros [(e0 & [= <-] & H & _)|([=] & _)]. congruence.
  - destruct (rr_model board_kwargs d1) as [d2 [e|resp]]; cbn [fst snd].
    + destruct (close d2) as [d' [e'|]]; cbn [fst snd]; split.
      * discriminate.
      * intros [(e0 & [=] & _)|(_ & e0 & _ & _ & [=])].
      * destruct (caught_on_model e) eqn:Hc; [|discriminate].
        intros _. right. split; [reflexivity|]. eauto.
      * intros [(e0 & [=] & _)|(_ & e0 & [= <-] & -> & _)]. reflexivity.
    + split.
      * destruct (close d2) as [d3 [e'|]]; cbn [snd]; [discriminate|].
        destruct (unique_id (result resp)); discriminate.
      * intros [(e0 & [=] & _)|(_ & e0 & [=] & _)].
Qed.

(** X20: an exception of [rr_model] that the second handler does not
    list (an OSError that is no ClientError and no timeout, for one, which
    the handler around [connect] does swallow) leaves [connect_to_duet],
    after the connection has been closed. *)
Theorem model_error_propagates ip_address password d2 e :
  let duet := make ip_address password in
  snd (connect duet) = None ->
  rr_model board_kwargs (fst (connect duet)) = (d2, inl e) ->
  caught_on_model e = false ->
  snd (close d2) = None ->
  connect_to_duet ip_address password =
  (fst (close d2), [Connect; Model board_kwargs; Close], Raised (FromClient e)).
Proof.
  intros duet Hc Hm He Hcl. unfold Discover.connect_to_duet, closing.
  fold duet. destruct (connect duet) as [d1 o]. cbn [fst snd] in *. subst o.
  rewrite Hm, He. destruct (close d2) as [d3 o]. cbn [fst snd] in *. now subst o.
Qed.

(** X21: [connect_to_duet] returns a dict exactly when [connect],
    [rr_model] and [close] all return and the result of [rr_model] is a
    mapping with the key "uniqueId"; the dict then holds the address and
    the password it was given and the rendered unique id.  A result that
    is a mapping without that key raises KeyError, any other result
    TypeError, in both cases after the connection was closed. *)
Theorem returns_discovered_iff ip_address password r :
  let duet := make ip_address password in
  let d1 := fst (connect duet) in
  let d2 := fst (rr_model board_kwargs d1) in
  snd (connect_to_duet ip_address password) = Returned (Some r) <->
  (snd (connect duet) = None /\
   snd (close d2) = None /\
   exists resp board u,
     snd (rr_model board_kwargs d1) = inr resp /\
     result resp = JDict board /\
     dict_get board "uniqueId" = Some u /\
     r = Discovered ip_address password (format u)).
Proof.
  unfold Discover.connect_to_duet, closing. cbv zeta.
  destruct (connect (make ip_address password)) as [d1 [e|]]; cbn [fst snd].
  - split.
    + destruct (caught_on_connect e); [|discriminate].
      destruct (close d1) as [d' [e'|]]; discriminate.
    + intros ([=] & _).
  - destruct (rr_model board_kwargs d1) as [d2 [e|resp]]; cbn [fst snd].
    + split.
      * destruct (close d2) as [d' [e'|]]; [discriminate|].
        destruct (caught_on_model e); discriminate.
      * intros (_ & _ & resp & board & u & [=] & _).
    + destruct (close d2) as [d3 [e'|]]; cbn [fst snd].
      * split; [discriminate | intros (_ & [=] & _)].
      * unfold unique_id. destruct (result resp) as [|b|z|s|l|board] eqn:Hres;
          try (split; [discriminate
                      | intros (_ & _ & resp' & board' & u' & [= <-] & Hb & _);
                        congruence]).
        destruct (dict_get board "uniqueId") as [u|] eqn:Hu; split.
        -- intros [= <-]. repeat split. exists resp, board, u. auto.
        -- intros (_ & _ & resp' & board' & u' & [= <-] & Hb & Hu' & ->).
           rewrite Hres in Hb. injection Hb as <-. cbn [snd]. congruence.
        -- discriminate.
        -- intros (_ & _ & resp' & board' & u' & [= <-] & Hb & Hu' & _).
           rewrite Hres in Hb. injection Hb as <-. congruence.
Qed.

End ConnectFacts.

(** A client whose [rr_model] raises a plain OSError. *)
Lemma model_error_propagates_witness :
  Discover.connect_to_duet
    (fun _ _ => 0) (fun _ => (1, None))
    (fun _ _ => (2, inl Discover.OSError)) (fun _ => (3, None))
    (fun _ => "") "192.168.1.10" "reprap" =
  (3, [Discover.Connect; Discover.Model Discover.board_kwargs; Discover.Close],
   Discover.Raised (Discover.FromClient Discover.OSError)).
Proof.
  apply (@model_error_propagates nat (fun _ _ => 0) (fun _ => (1, None))
           (fun _ _ => (2, inl Discover.OSError)) (fun _ => (3, None))
           (fun _ => "") "192.168.1.10" "reprap" 2 Discover.OSError);
    reflexivity.
Defined.


Section VolChanges.
Variable Api : Type.
Variable rr_model : kwargs -> Api -> Api * option response.
Variable rr_reply : option bool -> Api -> Api * option string.

Notation printer := (DuetPrinter Api).
Notation _handle_om_changes := (_handle_om_changes rr_model rr_reply).
Notation fetch_changed := (fetch_changed rr_model).
Notation fetch_reply := (fetch_reply rr_reply).
Notation fetch_subtrees := (fetch_subtrees rr_model).
Notation fetch := (_fetch_objectmodel_recursive rr_model).

Lemma fetch_changed_keys_below fuel ks (p p' : printer) out :
  ~ In "" ks ->
  fetch_changed fuel ks p = (p', out) ->
  exists evs,
    history (io p') = history (io p) ++ evs /\
    Forall (fun e => exists k kw,
                In k ks /\ k <> "reply" /\
                e = CallModel kw /\ below k (key kw)) evs.
Proof.
  revert p. induction ks as [|k ks IH]; intros p Hroot; simpl.
  - intros [= <- <-]. exists []. now rewrite app_nil_r.
  - assert (Hk : k <> "") by (intros ->; apply Hroot; now left).
    assert (Hroot' : ~ In "" ks) by (intros Hin; apply Hroot; now right).
    assert (Hweak : forall evs,
               Forall (fun e => exists k0 kw,
                           In k0 ks /\ k0 <> "reply" /\
                           e = CallModel kw /\ below k0 (key kw)) evs ->
               Forall (fun e => exists k0 kw,
                           In k0 (k :: ks) /\ k0 <> "reply" /\
                           e = CallModel kw /\ below k0 (key kw)) evs).
    { intros evs. apply Forall_impl. intros e (k0 & kw & Hin & H).
      exists k0, kw. split; [now right | exact H]. }
    destruct (String.eqb k "reply") eqn:E.
    + intros H. apply IH in H; [|exact Hroot'].
      destruct H as (evs & Hh & Hall). exists evs. split; auto.
    + apply String.eqb_neq in E.
      unfold bind, on_api, om_setitem.
      destruct (fetch fuel (subtree_kwargs k) (io p)) as [c o] eqn:Hf.
      apply fetch_keys_below in Hf; [|exact Hk].
      destruct Hf as (evs1 & Hh1 & Hall1).
      assert (Hall1' : Forall (fun e => exists k0 kw,
                                   In k0 (k :: ks) /\ k0 <> "reply" /\
                                   e = CallModel kw /\ below k0 (key kw)) evs1).
      { eapply Forall_impl; [|exact Hall1]. intros e (kw & -> & Hb).
        exists k, kw. repeat split; auto. now left. }
      destruct o as [res| | |];
        try (intros [= <- <-]; exists evs1; split; assumption).
      cbn [om set_io]. destruct (om p);
        [|intros [= <- <-]; exists evs1; split; assumption].
      intros H. apply IH in H; [|exact Hroot'].
      destruct H as (evs2 & Hh2 & Hall2).
      cbn [io set_om set_io] in Hh2.
      exists (evs1 ++ evs2). split.
      * now rewrite Hh2, Hh1, app_assoc.
      * apply Forall_app. split; auto.
Qed.

Lemma fetch_reply_history changes (p q : printer) out :
  fetch_reply changes p = (q, out) ->
  exists pre,
    history (io q) = history (io p) ++ pre /\
    Forall (fun e => forall kw, e <> CallModel kw) pre.
Proof.
  unfold fetch_reply, bind, on_api, call_rr_reply, wake, bind, modify.
  destruct (dict_in "reply" changes).
  - destruct (rr_reply None (api (io p))) as [a [r|]]; intros [= <- <-]; cbn.
    + exists [CallReply None; Woken (Some r)]. split.
      * now rewrite <- app_assoc.
      * repeat constructor; discriminate.
    + exists [CallReply None]. split; [reflexivity|].
      repeat constructor; discriminate.
  - intros [= <- <-]. exists []. now rewrite app_nil_r.
Qed.

(** C10: when the changed set contains "volChanges", the key is taken
    out of the set: the run is the run on the remaining keys, and the
    baseline's entry "volChanges" is what it was.  No call of [rr_model]
    is made for the key "volChanges" (provided the root key "" is not a
    changed key): every such call is for a changed key other than
    "volChanges" and "reply", or for a key of its subtree.  The other keys
    are processed as ever: after a successful run the client is where the
    fetches of their subtrees, in order, have left it, and the baseline
    holds under each of them the result of its fetch.  When the set is the
    stored counters themselves, they lose the key as well. *)
Theorem vol_changes_skipped fuel changes aliased (p p' : printer) o out :
  om p = Some o ->
  dict_in "volChanges" changes = true ->
  _handle_om_changes fuel changes aliased p = (p', out) ->
  let rest := dict_pop changes "volChanges" in
  dict_in "volChanges" rest = false /\
  ~ In "volChanges" (keys rest) /\
  (exists p2,
      _handle_om_changes fuel rest false p = (p2, out) /\
      io p2 = io p' /\ om p2 = om p' /\ _reply p2 = _reply p') /\
  (exists o', om p' = Some o' /\
              dict_get o' "volChanges" = dict_get o "volChanges") /\
  (aliased = true -> out = Ok tt -> seqs p' = Some rest) /\
  (~ In "" (keys changes) ->
   exists evs,
     history (io p') = history (io p) ++ evs /\
     Forall (fun e => forall kw,
                 e = CallModel kw ->
                 key kw <> "volChanges" /\
                 exists k, In k (keys changes) /\
                           k <> "volChanges" /\ k <> "reply" /\
                           below k (key kw)) evs) /\
  (out = Ok tt ->
   exists q fetched,
     fetch_reply changes p = (q, Ok tt) /\
     fetch_subtrees fuel (keys rest) (io q) = (io p', Ok fetched) /\
     om p' = Some (dict_update o fetched) /\
     keys fetched = filter (fun k => negb (String.eqb k "reply")) (keys rest) /\
     ~ In "volChanges" (keys fetched) /\
     (NoDup (keys changes) ->
      forall k,
        In k (keys changes) -> k <> "reply" -> k <> "volChanges" ->
        exists c1 c2 res,
          fetch fuel (subtree_kwargs k) c1 = (c2, Ok res) /\
          In (k, result res) fetched /\
          dict_get (dict_update o fetched) k = Some (result res))).
Proof.
  intros Hom Hv H rest.
  destruct (@vol_changes_run _ rr_model rr_reply fuel changes aliased p p' o out
              Hom Hv H) as (H1 & H2 & H3 & H4 & H5).
  repeat (split; [assumption|]). split.
  - (* the calls made *)
    intros Hroot. revert H. unfold _handle_om_changes, bind. rewrite Hv.
    destruct (fetch_reply changes p) as [q o0] eqn:Hr.
    apply fetch_reply_history in Hr. destruct Hr as (pre & Hpre & Hnone).
    assert (Hpre' : Forall (fun e => forall kw,
                        e = CallModel kw ->
                        key kw <> "volChanges" /\
                        exists k, In k (keys changes) /\
                                  k <> "volChanges" /\ k <> "reply" /\
                                  below k (key kw)) pre).
    { eapply Forall_impl; [|exact Hnone]. intros e He kw Hkw.
      exfalso. exact (He kw Hkw). }
    destruct o0 as [[]| | |];
      try (intros [= <- <-]; exists pre; split; assumption).
    assert (Hloop : forall q0 : printer,
               io q0 = io q ->
               fetch_changed fuel (keys rest) q0 = (p', out) ->
               exists evs,
                 history (io p') = history (io p) ++ evs /\
                 Forall (fun e => forall kw,
                             e = CallModel kw ->
                             key kw <> "volChanges" /\
                             exists k, In k (keys changes) /\
                                       k <> "volChanges" /\ k <> "reply" /\
                                       below k (key kw)) evs).
    { intros q0 Hio Hfc. apply fetch_changed_keys_below in Hfc.
      - destruct Hfc as (evs & Hh & Hall). exists (pre ++ evs). split.
        + now rewrite Hh, Hio, Hpre, app_assoc.
        + apply Forall_app. split; [exact Hpre'|].
          eapply Forall_impl; [|exact Hall].
          intros e (k & kw & Hin & Hrep & -> & Hb) kw' [= <-].
          unfold rest in Hin. rewrite keys_dict_pop in Hin.
          apply filter_In in Hin. destruct Hin as [Hin Hne].
          apply negb_true_iff, String.eqb_neq in Hne.
          split.
          * intros Hkey. rewrite Hkey in Hb.
            apply below_without_dot in Hb; [|reflexivity]. congruence.
          * exists k. repeat split; auto.
      - unfold rest. rewrite keys_dict_pop. intros Hin.
        apply filter_In in Hin. tauto. }
    destruct aliased; unfold modify, ret; cbn beta iota; apply Hloop; reflexivity.
  - (* the other keys *)
    intros ->. apply handle_success with (o := o) in H; [|exact Hom].
    destruct H as (q & fetched & Hr & Hf & Hom').
    exists q, fetched. repeat (split; [assumption|]).
    pose proof Hf as Hkv. apply fetch_subtrees_keys in Hkv.
    destruct Hkv as [Hkeys Hvals].
    split; [exact Hkeys|]. split.
    + rewrite Hkeys. intros Hin. apply filter_In in Hin. tauto.
    + intros Hnd k Hin Hreply Hvol.
      assert (Hndf : NoDup (keys fetched)).
      { rewrite Hkeys. unfold rest. rewrite keys_dict_pop.
        now do 2 apply NoDup_filter. }
      assert (Hk : In k (keys fetched)).
      { rewrite Hkeys. unfold rest. rewrite keys_dict_pop.
        apply filter_In. split.
        - apply filter_In. split; [exact Hin|].
          apply negb_true_iff. now apply String.eqb_neq.
        - apply negb_true_iff. now apply String.eqb_neq. }
      unfold keys in Hk. apply in_map_iff in Hk.
      destruct Hk as ([k' v] & Hfst & Hkv). simpl in Hfst. subst k'.
      destruct (Hvals _ _ Hkv) as (c1 & c2 & res & Hfetch & ->).
      exists c1, c2, res. repeat split; auto.
      now apply dict_update_get_in.
Qed.

End VolChanges.

Lemma vol_changes_skipped_witness :
  let p := Bench.tracking Bench.idle_board None in
  let changes := [("volChanges", JList [JNum 1]); ("job", JNum 3)] in
  let o := [("job", JDict [("layer", JNum 0)])] in
  let p' := fst (handle_on_bench 5 changes true p) in
  let rest := dict_pop changes "volChanges" in
  dict_in "volChanges" rest = false /\
  ~ In "volChanges" (keys rest) /\
  (exists p2,
      handle_on_bench 5 rest false p = (p2, Ok tt) /\
      io p2 = io p' /\ om p2 = om p' /\ _reply p2 = _reply p') /\
  (exists o', om p' = Some o' /\
              dict_get o' "volChanges" = dict_get o "volChanges") /\
  (true = true -> Ok tt = Ok tt -> seqs p' = Some rest) /\
  (~ In "" (keys changes) ->
   exists evs,
     history (io p') = history (io p) ++ evs /\
     Forall (fun e => forall kw,
                 e = CallModel kw ->
                 key kw <> "volChanges" /\
                 exists k, In k (keys changes) /\
                           k <> "volChanges" /\ k <> "reply" /\
                           below k (key kw)) evs) /\
  (Ok tt = Ok tt ->
   exists q fetched,
     fetch_reply Bench.rr_reply changes p = (q, Ok tt) /\
     fetch_subtrees Bench.rr_model 5 (keys rest) (io q) = (io p', Ok fetched) /\
     om p' = Some (dict_update o fetched) /\
     keys fetched = filter (fun k => negb (String.eqb k "reply")) (keys rest) /\
     ~ In "volChanges" (keys fetched) /\
     (NoDup (keys changes) ->
      forall k,
        In k (keys changes) -> k <> "reply" -> k <> "volChanges" ->
        exists c1 c2 res,
          _fetch_objectmodel_recursive Bench.rr_model 5 (subtree_kwargs k) c1
          = (c2, Ok res) /\
          In (k, result res) fetched /\
          dict_get (dict_update o fetched) k = Some (result res))).
Proof.
  intros p changes o p'.
  apply (@vol_changes_skipped _ Bench.rr_model Bench.rr_reply 5 changes true p p'
           o (Ok tt)).
  - reflexivity.
  - reflexivity.
  - vm_compute. reflexivity.
Defined.
